(** * A shallow embedding of the [lsh] shell ([src/main.c])

    The development follows the source file from the leaves up: C strings and
    the two library routines the shell relies on ([strncmp], [fgets]), the
    history store, the completion engine, the raw-mode line editor and the
    command dispatcher.  Every definition names the C function or statement it
    stands for.

    Conventions.
    - A value of type [string] stands for a C string: the bytes before the
      terminating NUL.  [cstring s] says that [s] holds no NUL byte.
    - Heap blocks that the program indexes ([hist->commands], the edit
      buffer) are lists read with [!!] and written with [<[i:=x]>]; a cell
      that was never written is [None].
    - [int] counters are natural numbers: the program never decrements one
      below zero, and none comes near [INT_MAX] on the inputs considered. *)

From Stdlib Require Import ZArith Ascii String.
From stdpp Require Import base tactics option list strings pretty.

Local Open Scope string_scope.
Local Open Scope list_scope.
Local Open Scope nat_scope.

(** ** Characters and C strings *)

Definition NUL : ascii := ascii_of_nat 0.
Definition LF : ascii := ascii_of_nat 10.
Definition CR : ascii := ascii_of_nat 13.
Definition ESC : ascii := ascii_of_nat 27.

(** The one-character strings the format strings of the source contain. *)
Definition nl : string := String LF EmptyString.
Definition cr : string := String CR EmptyString.
Definition esc : string := String ESC EmptyString.

(** [strlen] on a C string. *)
Definition strlen (s : string) : nat := String.length s.

(** Membership of a character in a string. *)
Fixpoint strchr (s : string) (c : ascii) : bool :=
  match s with
  | EmptyString => false
  | String d rest => Ascii.eqb c d || strchr rest c
  end.

(** A well-formed C string holds no NUL. *)
Definition cstring (s : string) : Prop := strchr s NUL = false.

(** ** The history store (lines 9-16, 508-526) *)

Definition HISTORY_MAX : nat := 1000.

(** [typedef struct { char **commands; int count; int capacity; } History;]
    [commands] is the block of [capacity] pointers; a slot holds [None] until
    a [strdup]ed line is stored in it. *)
Record History := mkHistory {
  commands : list (option string);
  count : nat;
  capacity : nat
}.

(** [history_init]: a block of [HISTORY_MAX] unset slots. *)
Definition history_init : History :=
  {| commands := replicate HISTORY_MAX None;
     count := 0;
     capacity := HISTORY_MAX |}.

(** The eviction loop of [history_add]:
    [for (int i = 0; i < hist->count - 1; i++) commands[i] = commands[i + 1];]
    [n] is the number of iterations left, [i] the loop index. *)
Fixpoint shift_down (n i : nat) (cmds : list (option string)) : list (option string) :=
  match n with
  | O => cmds
  | S n' => shift_down n' (S i) (<[i := mjoin (cmds !! S i)]> cmds)
  end.

(** [history_add].  [strdup] is taken to succeed, and [free] of the evicted
    string leaves no trace in the model.  There is no test on the line
    itself: whatever string is passed is stored.  In a store that satisfies
    [hist_wf] below every index used lies inside the block; elsewhere the C
    program has no defined behaviour and the updates of the model do
    nothing. *)
Definition history_add (hist : History) (command : string) : History :=
  let hist1 :=
    if decide (capacity hist ≤ count hist) then
      {| commands := shift_down (count hist - 1) 0 (commands hist);
         count := count hist - 1;
         capacity := capacity hist |}
    else hist in
  {| commands := <[count hist1 := Some command]> (commands hist1);
     count := S (count hist1);
     capacity := capacity hist1 |}.

(** The stored sequence, oldest first: the slots below [count].  An unset
    slot below [count] does not occur in a well-formed store. *)
Definition history_list (hist : History) : list string :=
  omap id (take (count hist) (commands hist)).

(** The representation invariant: the block has [capacity] slots, at least
    one, [count] is within the capacity and the first [count] slots are
    set. *)
Definition hist_wf (hist : History) : Prop :=
  0 < capacity hist ∧
  length (commands hist) = capacity hist ∧
  count hist ≤ capacity hist ∧
  take (count hist) (commands hist) = Some <$> history_list hist.

(** Appending a whole sequence of lines, oldest first. *)
Definition history_add_all (hist : History) (lines : list string) : History :=
  foldl history_add hist lines.

(** ** The completion engine (lines 183, 263-295, 572-607) *)

Definition LSH_TOK_BUFSIZE : nat := 64.

(** [char *builtin_str[]], in table order. *)
Definition builtin_str : list string :=
  [ "cd"; "help"; "exit"; "ls"; "pwd"; "clear";
    "history"; "cat"; "grep"; "touch"; "echo"; "rm" ].

(** [lsh_num_builtins]: [sizeof(builtin_str) / sizeof(char * )]. *)
Definition lsh_num_builtins : nat := length builtin_str.

(** [strncmp(a, b, n)]: at most [n] characters are compared as unsigned
    bytes; where one string ends its terminating NUL (value 0) is what is
    compared.  The result is the difference at the first mismatch. *)
Fixpoint strncmp (a b : string) (n : nat) : Z :=
  match n with
  | O => 0%Z
  | S n' =>
      match a, b with
      | EmptyString, EmptyString => 0%Z
      | EmptyString, String cb _ => (0 - Z.of_nat (nat_of_ascii cb))%Z
      | String ca _, EmptyString => Z.of_nat (nat_of_ascii ca)
      | String ca a', String cb b' =>
          if Ascii.eqb ca cb then strncmp a' b' n'
          else (Z.of_nat (nat_of_ascii ca) - Z.of_nat (nat_of_ascii cb))%Z
      end
  end.

(** The test both loops of [get_completions] apply to a candidate name:
    [strncmp(partial, name, strlen(partial)) == 0]. *)
Definition completes (partial name : string) : bool :=
  (strncmp partial name (strlen partial) =? 0)%Z.

(** First loop of [get_completions]:
    [for (i = 0; i < lsh_num_builtins(); i++) if (...) completions[count++] = strdup(builtin_str[i]);]
    [names] is the part of the table still to visit; the candidates found so
    far are [completions] (so [count] is its length). *)
Fixpoint builtin_loop (partial : string) (names : list string)
    (completions : list string) : list string :=
  match names with
  | [] => completions
  | name :: rest =>
      if completes partial name
      then builtin_loop partial rest (completions ++ [name])
      else builtin_loop partial rest completions
  end.

(** Second loop:
    [while ((entry = readdir(dir)) && count < LSH_TOK_BUFSIZE) if (...) completions[count++] = strdup(entry->d_name);]
    [entries] is what [readdir] still has to deliver, in its order.  The loop
    ends when the directory is exhausted or [count] has reached the bound. *)
Fixpoint readdir_loop (partial : string) (entries : list string)
    (completions : list string) : list string :=
  match entries with
  | [] => completions
  | d_name :: rest =>
      if decide (length completions < LSH_TOK_BUFSIZE) then
        if completes partial d_name
        then readdir_loop partial rest (completions ++ [d_name])
        else readdir_loop partial rest completions
      else completions
  end.

(** The listing printed when more than one candidate was found:
    a newline, every candidate followed by a space, then the prompt and the
    partial word again. *)
Definition show_matches (partial : string) (completions : list string) : string :=
  if decide (1 < length completions) then
    nl +:+ foldr (λ c acc, c +:+ " " +:+ acc) EmptyString completions
       +:+ nl +:+ "> " +:+ partial
  else EmptyString.

(** [get_completions(partial)].  [dir] is the sequence of names [readdir]
    yields for the current directory ([opendir(".")] is taken to succeed).
    The result is the candidate array up to its NULL terminator, paired with
    what the call writes to the terminal.  The terminator itself is stored at
    index [count] of the [LSH_TOK_BUFSIZE]-slot block. *)
Definition get_completions (partial : string) (dir : list string) : list string * string :=
  let completions := builtin_loop partial builtin_str [] in
  let completions := readdir_loop partial dir completions in
  (completions, show_matches partial completions).

(** ** Persistence of the history (lines 538-560)

    The file [.shell_history] is a byte sequence; [None] stands for a file
    that does not exist (or cannot be opened for reading). *)

(** The characters [fgets] moves into its buffer: it stops after [room]
    characters, after a newline (which it keeps) or at the end of the file.
    The second component is what is left of the stream. *)
Fixpoint fgets_read (room : nat) (fp : string) : string * string :=
  match room, fp with
  | O, _ => (EmptyString, fp)
  | _, EmptyString => (EmptyString, EmptyString)
  | S room', String c rest =>
      if Ascii.eqb c LF then (String c EmptyString, rest)
      else let '(got, rest') := fgets_read room' rest in (String c got, rest')
  end.

(** [fgets(buffer, size, fp)]: [None] (a NULL result) at the end of the file,
    else at most [size - 1] characters are read. *)
Definition fgets (size : nat) (fp : string) : option (string * string) :=
  match fp with
  | EmptyString => None
  | _ => Some (fgets_read (size - 1) fp)
  end.

(** The C string a byte block holds: the bytes before its first NUL. *)
Fixpoint until_nul (bytes : string) : string :=
  match bytes with
  | EmptyString => EmptyString
  | String c rest => if Ascii.eqb c NUL then EmptyString else String c (until_nul rest)
  end.

(** [strcspn(s, reject)]: length of the longest prefix of [s] free of the
    characters of [reject]. *)
Fixpoint strcspn (s reject : string) : nat :=
  match s with
  | EmptyString => 0
  | String c rest => if strchr reject c then 0 else S (strcspn rest reject)
  end.

(** The loop of [history_save]:
    [for (int i = 0; i < hist->count; i++) fprintf(fp, "%s\n", hist->commands[i]);]
    [fp] is what has been written so far. *)
Fixpoint save_loop (n i : nat) (cmds : list (option string)) (fp : string) : string :=
  match n with
  | O => fp
  | S n' =>
      let line := match mjoin (cmds !! i) with
                  | Some command => command +:+ nl
                  | None => EmptyString
                  end in
      save_loop n' (S i) cmds (fp +:+ line)
  end.

(** [history_save].  [fopen_ok] tells whether [fopen(".shell_history", "w")]
    succeeds; when it does the file is truncated and rewritten, when it does
    not ([perror], return) the file is left as it was. *)
Definition history_save (hist : History) (fopen_ok : bool) (file : option string) : option string :=
  if fopen_ok then Some (save_loop (count hist) 0 (commands hist) EmptyString)
  else file.

(** The loop of [history_load]:
    [while (fgets(buffer, sizeof(buffer), fp)) { buffer[strcspn(buffer, "\n")] = 0; history_add(hist, buffer); }]
    with [char buffer[1024]].  Every successful [fgets] consumes at least one
    byte, so [fuel] = the number of bytes of the file is enough (see
    [history_load_loop_fuel]). *)
Fixpoint history_load_loop (fuel : nat) (hist : History) (fp : string) : History :=
  match fuel with
  | O => hist
  | S fuel' =>
      match fgets 1024 fp with
      | None => hist
      | Some (bytes, fp') =>
          let buffer := until_nul bytes in
          let buffer := substring 0 (strcspn buffer nl) buffer in
          history_load_loop fuel' (history_add hist buffer) fp'
      end
  end.

(** The text [history_save] writes for the lines [l]: each line followed by
    a newline. *)
Definition lines_text (l : list string) : string :=
  foldr (λ command text, command +:+ nl +:+ text) EmptyString l.

(** A line that one [fgets] call of [history_load] reads back whole: a C
    string without a newline in it, short enough to fit the 1024-byte buffer
    together with its newline and the NUL. *)
Definition one_line (command : string) : Prop :=
  cstring command ∧ strchr command LF = false ∧ strlen command ≤ 1022.

(** [history_load]: nothing happens when the file cannot be opened. *)
Definition history_load (hist : History) (file : option string) : History :=
  match file with
  | None => hist
  | Some fp => history_load_loop (String.length fp) hist fp
  end.

(** ** The raw-mode line editor (lines 18, 50-59, 79-178) *)

Definition LSH_RL_BUFSIZE : nat := 1024.

(** The two bits of [c_lflag] the program touches.  The other fields of
    [struct termios] are copied unchanged by both mode switches. *)
Record termios := mkTermios {
  ICANON : bool;
  ECHO : bool
}.

(** The process-wide state a line-read works on: the globals
    [shell_history] and [orig_termios], the mode the terminal is in, and the
    two output streams. *)
Record shell := mkShell {
  shell_history : History;
  orig_termios : termios;
  tty : termios;
  stdout : string;
  stderr : string
}.

(** The terminal is raw when canonical mode and echo are both off. *)
Definition is_raw (t : termios) : bool := negb (ICANON t) && negb (ECHO t).

Definition printf (s : string) (sh : shell) : shell :=
  mkShell (shell_history sh) (orig_termios sh) (tty sh) (stdout sh +:+ s) (stderr sh).

Definition eprintf (s : string) (sh : shell) : shell :=
  mkShell (shell_history sh) (orig_termios sh) (tty sh) (stdout sh) (stderr sh +:+ s).

(** [enable_raw_mode]: [tcgetattr] into [orig_termios], then [tcsetattr]
    with [ICANON] and [ECHO] cleared.  Both calls are taken to succeed, as
    the source does. *)
Definition enable_raw_mode (sh : shell) : shell :=
  let orig := tty sh in
  let raw := mkTermios false false in
  mkShell (shell_history sh) orig raw (stdout sh) (stderr sh).

(** [disable_raw_mode]: [tcsetattr] with [orig_termios]. *)
Definition disable_raw_mode (sh : shell) : shell :=
  mkShell (shell_history sh) (orig_termios sh) (orig_termios sh) (stdout sh) (stderr sh).

Definition with_history (hist : History) (sh : shell) : shell :=
  mkShell hist (orig_termios sh) (tty sh) (stdout sh) (stderr sh).

(** The locals of [lsh_read_line] together with the process state.  [buffer]
    is the heap block of [bufsize] bytes; a byte nobody wrote is [None]. *)
Record rl_state := mkRl {
  bufsize : nat;
  position : nat;
  buffer : list (option ascii);
  history_pos : nat;
  sh : shell
}.

(** What the heap and the current directory answer during one line-read:
    [alloc_ok n] tells whether a request for [n] bytes succeeds, [cwd] is
    the sequence of names [readdir] yields. *)
Record env := mkEnv {
  alloc_ok : nat → bool;
  cwd : list string
}.

(** Memory errors of the C program, which the model stops at. *)
Inductive fault :=
  | BadHistoryIndex    (* [commands[history_pos]] outside the stored entries *)
  | BufferOverflow     (* a write past the end of [buffer] *)
  | UnterminatedRead.  (* [buffer] read as a C string with no NUL written *)

(** How a line-read ends.  [Reading] is the state in which the program waits
    in [getchar] once the given input is used up. *)
Inductive outcome :=
  | Returned (line : string) (st : rl_state) (rest : list Z)
  | Exited (st : rl_state)
  | Reading (st : rl_state)
  | Fault (f : fault) (st : rl_state).

(** One pass through the body of [while (1)]: go round again, or leave. *)
Inductive step :=
  | Next (st : rl_state)
  | Done (o : outcome).

(** [(char) c] for an [int] delivered by [getchar]. *)
Definition char_of_int (c : Z) : ascii := ascii_of_nat (Z.to_nat (c mod 256)).

(** The C string stored at the start of a block: [None] when an unwritten
    byte or the end of the block comes before a NUL. *)
Fixpoint c_str (cells : list (option ascii)) : option string :=
  match cells with
  | [] => None
  | None :: _ => None
  | Some c :: rest =>
      if Ascii.eqb c NUL then Some EmptyString
      else String c <$> c_str rest
  end.

(** [buffer[i] = c]. *)
Definition store (i : nat) (c : ascii) (st : rl_state) : option rl_state :=
  if decide (i < bufsize st)
  then Some (mkRl (bufsize st) (position st) (<[i := Some c]> (buffer st)) (history_pos st) (sh st))
  else None.

(** [strcpy(buffer, s)]: the characters of [s] and a NUL, [strlen(s) + 1]
    bytes in all. *)
Definition strcpy (s : string) (st : rl_state) : option rl_state :=
  if decide (strlen s + 1 ≤ bufsize st)
  then Some (mkRl (bufsize st) (position st)
               ((Some <$> list_ascii_of_string s) ++ Some NUL :: drop (strlen s + 1) (buffer st))
               (history_pos st) (sh st))
  else None.

Definition set_position (p : nat) (st : rl_state) : rl_state :=
  mkRl (bufsize st) p (buffer st) (history_pos st) (sh st).

Definition set_history_pos (p : nat) (st : rl_state) : rl_state :=
  mkRl (bufsize st) (position st) (buffer st) p (sh st).

Definition with_shell (f : shell → shell) (st : rl_state) : rl_state :=
  mkRl (bufsize st) (position st) (buffer st) (history_pos st) (f (sh st)).

(** [shell_history->commands[i]] as a string to read: defined for the
    entries the store holds, the indices below [count]. *)
Definition history_entry (hist : History) (i : nat) : option string :=
  if decide (i < count hist) then mjoin (commands hist !! i) else None.

(** The three statements both arrow keys run on a recalled entry:
    [strcpy(buffer, shell_history->commands[history_pos]); printf(fmt, buffer); position = strlen(buffer);]
    [tail] is what the format string has after [%s]. *)
Definition recall (tail : string) (st : rl_state) : step :=
  match history_entry (shell_history (sh st)) (history_pos st) with
  | None => Done (Fault BadHistoryIndex st)
  | Some command =>
      match strcpy command st with
      | None => Done (Fault BufferOverflow st)
      | Some st =>
          let st := with_shell (printf (cr +:+ "> " +:+ command +:+ tail)) st in
          Next (set_position (strlen command) st)
      end
  end.

(** Up arrow (lines 105-113). *)
Definition up_arrow (st : rl_state) : step :=
  if decide (0 < history_pos st) then
    recall (esc +:+ "[K") (set_history_pos (history_pos st - 1) st)
  else Next st.

(** Down arrow (lines 114-128).  Both tests are the one the source writes,
    [history_pos < shell_history->count - 1], in [int] arithmetic. *)
Definition down_arrow (st : rl_state) : step :=
  let cnt := Z.of_nat (count (shell_history (sh st))) in
  if (Z.of_nat (history_pos st) <? cnt - 1)%Z then
    recall (esc +:+ "[K]") (set_history_pos (history_pos st + 1) st)
  else if (Z.of_nat (history_pos st) <? cnt - 1)%Z then
    match store 0 NUL st with
    | None => Done (Fault BufferOverflow st)
    | Some st =>
        let st := with_shell (printf (cr +:+ "> " +:+ esc +:+ "[K")) st in
        Next (set_position 0 st)
    end
  else Next st.

(** The escape branch once [seq[0]] and [seq[1]] are read (lines 104-130). *)
Definition escape_sequence (seq0 seq1 : Z) (st : rl_state) : step :=
  if Ascii.eqb (char_of_int seq0) "["%char then
    if Ascii.eqb (char_of_int seq1) "A"%char then up_arrow st
    else if Ascii.eqb (char_of_int seq1) "B"%char then down_arrow st
    else Next st
  else Next st.

(** Newline (lines 132-140). *)
Definition newline (st : rl_state) (rest : list Z) : outcome :=
  match store (position st) NUL st with
  | None => Fault BufferOverflow st
  | Some st =>
      let st := with_shell (printf nl) st in
      let st := with_shell disable_raw_mode st in
      match c_str (buffer st) with
      | None => Fault UnterminatedRead st
      | Some line =>
          let st :=
            if decide (0 < position st)
            then with_shell (λ s, with_history (history_add (shell_history s) line) s) st
            else st in
          Returned line st rest
      end
  end.

(** Tab (lines 142-151).  [get_completions] reads [buffer] as it stands. *)
Definition tab (e : env) (st : rl_state) : step :=
  match c_str (buffer st) with
  | None => Done (Fault UnterminatedRead st)
  | Some partial =>
      let '(completions, shown) := get_completions partial (cwd e) in
      let st := with_shell (printf shown) st in
      match completions with
      | [] => Next st
      | first :: _ =>
          match strcpy first st with
          | None => Done (Fault BufferOverflow st)
          | Some st =>
              let st := with_shell (printf (cr +:+ "> " +:+ first)) st in
              Next (set_position (strlen first) st)
          end
      end
  end.

(** Backspace (lines 153-159). *)
Definition backspace (st : rl_state) : step :=
  if decide (0 < position st) then
    let st := set_position (position st - 1) st in
    Next (with_shell (printf (String (ascii_of_nat 8) (String " " (String (ascii_of_nat 8) EmptyString)))) st)
  else Next st.

(** [if (c >= 32) { buffer[position] = c; position++; printf("%c", c); }]
    (lines 161-165). *)
Definition printable (c : Z) (st : rl_state) : step :=
  if (32 <=? c)%Z then
    match store (position st) (char_of_int c) st with
    | None => Done (Fault BufferOverflow st)
    | Some st =>
        let st := set_position (position st + 1) st in
        Next (with_shell (printf (String (char_of_int c) EmptyString)) st)
    end
  else Next st.

(** The reallocation at the end of the loop body (lines 168-176):
    [realloc] keeps the old bytes and adds [LSH_RL_BUFSIZE] unwritten ones;
    when it fails the program reports and calls [exit]. *)
Definition grow (e : env) (st : rl_state) : step :=
  if decide (bufsize st ≤ position st) then
    let size := bufsize st + LSH_RL_BUFSIZE in
    if alloc_ok e size then
      Next (mkRl size (position st) (buffer st ++ replicate LSH_RL_BUFSIZE None)
              (history_pos st) (sh st))
    else
      Done (Exited (with_shell (eprintf ("lsh: allocation error" +:+ nl))
                      (mkRl size (position st) [] (history_pos st) (sh st))))
  else Next st.

(** A character that is none of ESC, newline, tab and backspace. *)
Definition other_key (e : env) (c : Z) (st : rl_state) : step :=
  match printable c st with
  | Next st => grow e st
  | Done o => Done o
  end.

(** The loop [while (1)] of [lsh_read_line] over the characters [getchar]
    delivers.  An escape takes the next two characters with it. *)
Fixpoint read_loop (e : env) (st : rl_state) (input : list Z) {struct input} : outcome :=
  match input with
  | [] => Reading st
  | c :: rest =>
      if (c =? 27)%Z then
        match rest with
        | seq0 :: seq1 :: rest' =>
            match escape_sequence seq0 seq1 st with
            | Next st => read_loop e st rest'
            | Done o => o
            end
        | _ => Reading st
        end
      else if (c =? 10)%Z then newline st rest
      else
        let next :=
          if (c =? 9)%Z then tab e st
          else if (c =? 127)%Z then backspace st
          else other_key e c st in
        match next with
        | Next st => read_loop e st rest
        | Done o => o
        end
  end.

(** [lsh_read_line]: the prologue (lines 82-93), then the loop. *)
Definition lsh_read_line (e : env) (s : shell) (input : list Z) : outcome :=
  let bufsize := LSH_RL_BUFSIZE in
  let history_pos := count (shell_history s) in
  if alloc_ok e bufsize then
    let st := mkRl bufsize 0 (replicate bufsize None) history_pos s in
    read_loop e (with_shell enable_raw_mode st) input
  else
    Exited (with_shell (eprintf ("lsh: allocation error" +:+ nl))
              (mkRl bufsize 0 [] history_pos s)).

(** ** The command dispatcher (lines 228-505, 563-568) *)

(** [strcmp(a, b)]: the difference at the first mismatch, the end of a
    string counting as the byte 0. *)
Fixpoint strcmp (a b : string) : Z :=
  match a, b with
  | EmptyString, EmptyString => 0%Z
  | EmptyString, String cb _ => (0 - Z.of_nat (nat_of_ascii cb))%Z
  | String ca _, EmptyString => Z.of_nat (nat_of_ascii ca)
  | String ca a', String cb b' =>
      if Ascii.eqb ca cb then strcmp a' b'
      else (Z.of_nat (nat_of_ascii ca) - Z.of_nat (nat_of_ascii cb))%Z
  end.

(** [strstr(hay, needle) != NULL]. *)
Fixpoint strstr (hay needle : string) : bool :=
  String.prefix needle hay ||
  match hay with
  | EmptyString => false
  | String _ rest => strstr rest needle
  end.

(** The operating system as the builtins and the launcher use it.  [F] is the
    state of everything outside the process image: the file system, the
    working directory, [errno] and the process table.  A call that can fail
    answers [None] (or [false]) and leaves its reason in [errno]. *)
Class Sys (F : Type) := {
  (* [strerror(errno)] *)
  sys_strerror : F → string;
  (* [chdir(path) == 0] *)
  sys_chdir : string → F → bool * F;
  (* [opendir(path)] and the names its [readdir] calls yield *)
  sys_opendir : string → F → option (list string) * F;
  (* [getcwd(buf, size)] *)
  sys_getcwd : nat → F → option string * F;
  (* [fopen(path, "r")] and the bytes of the file *)
  sys_fopen_r : string → F → option string * F;
  (* [fopen(path, "a")] followed by [fclose] *)
  sys_fopen_a : string → F → bool * F;
  (* [fopen(path, "w")], the data written through it, [fclose] *)
  sys_fopen_w : string → string → F → bool * F;
  (* [remove(path) == 0] *)
  sys_remove : string → F → bool * F;
  (* [fork]: [false] when no child could be created.  The child runs
     [execvp(args[0], args)] and, should that fail, reports and exits; it
     never returns into the shell's loop. *)
  sys_fork : list string → F → bool * F;
  (* the loop around [waitpid], left once the child has exited or was killed *)
  sys_wait : F → F
}.

Section Dispatcher.
Context {F : Type} `{Sys F}.

(** The state a command runs in: the process state of the shell and the
    outside world. *)
Definition world : Type := shell * F.

(** A builtin, [int f(char **args)]: the status is 1 to go on, 0 to stop. *)
Definition builtin : Type := list string → world → Z * world.

Definition out (s : string) (w : world) : world := (printf s w.1, w.2).
Definition err (s : string) (w : world) : world := (eprintf s w.1, w.2).

(** [perror(s)]. *)
Definition perror (s : string) (w : world) : world :=
  err (s +:+ ": " +:+ sys_strerror w.2 +:+ nl) w.

(** A double quote, for the messages that contain one. *)
Definition dq : string := String (ascii_of_nat 34) EmptyString.

(** [lsh_launch] as the shell process runs it (lines 228-256). *)
Definition lsh_launch (args : list string) (w : world) : Z * world :=
  let '(forked, f) := sys_fork args w.2 in
  if forked then (1%Z, (w.1, sys_wait f))
  else (1%Z, perror "lsh" (w.1, f)).

Definition lsh_cd : builtin := λ args w,
  match args !! 1 with
  | None => (1%Z, err ("lsh: expected argument to " +:+ dq +:+ "cd" +:+ dq +:+ nl) w)
  | Some path =>
      let '(ok, f) := sys_chdir path w.2 in
      if ok then (1%Z, (w.1, f)) else (1%Z, perror "lsh" (w.1, f))
  end.

Definition lsh_help : builtin := λ args w,
  let w := out ("Based off Stephen Brennan's LSH" +:+ nl) w in
  let w := out ("Type program names and arguments, and hit enter." +:+ nl) w in
  let w := out ("The following are built in:" +:+ nl) w in
  let w := foldl (λ w name, out (" " +:+ name +:+ nl) w) w builtin_str in
  (1%Z, out ("Use the man command for information on other programs." +:+ nl) w).

Definition lsh_exit : builtin := λ args w, (0%Z, w).

(** [entry->d_name[0] == '.'] *)
Definition hidden (d_name : string) : bool :=
  match d_name with
  | String c _ => Ascii.eqb c "."%char
  | EmptyString => false
  end.

Definition lsh_ls : builtin := λ args w,
  let path := default "." (args !! 1) in
  match sys_opendir path w.2 with
  | (None, f) => (1%Z, perror "lsh" (w.1, f))
  | (Some entries, f) =>
      let skip_hidden :=
        match args !! 1 with
        | None => true
        | Some a => negb (strcmp a "-a" =? 0)%Z
        end in
      (1%Z, foldl (λ w d_name,
                     if hidden d_name && skip_hidden then w
                     else out (d_name +:+ nl) w)
                  (w.1, f) entries)
  end.

Definition lsh_pwd : builtin := λ args w,
  match sys_getcwd 1024 w.2 with
  | (Some dir, f) => (1%Z, out (dir +:+ nl) (w.1, f))
  | (None, f) => (1%Z, perror "lsh" (w.1, f))
  end.

Definition lsh_clear : builtin := λ args w,
  (1%Z, out (esc +:+ "[2J" +:+ esc +:+ "[H") w).

(** [for (i = 0; i < shell_history->count; i++) printf("%d %s\n", i + 1, shell_history->commands[i]);] *)
Fixpoint history_loop (n i : nat) (w : world) : world :=
  match n with
  | O => w
  | S n' =>
      let command := default EmptyString (mjoin (commands (shell_history w.1) !! i)) in
      history_loop n' (S i) (out (pretty (i + 1) +:+ " " +:+ command +:+ nl) w)
  end.

Definition lsh_history : builtin := λ args w,
  (1%Z, history_loop (count (shell_history w.1)) 0 w).

(** [while (fgets(buffer, sizeof(buffer), fp)) printf("%s", buffer);] *)
Fixpoint cat_loop (fuel : nat) (fp : string) (w : world) : world :=
  match fuel with
  | O => w
  | S fuel' =>
      match fgets 1024 fp with
      | None => w
      | Some (bytes, fp') => cat_loop fuel' fp' (out (until_nul bytes) w)
      end
  end.

Definition lsh_cat : builtin := λ args w,
  match args !! 1 with
  | None => (1%Z, err ("lsh: expected argument to " +:+ dq +:+ "cat" +:+ dq +:+ nl) w)
  | Some path =>
      match sys_fopen_r path w.2 with
      | (None, f) => (1%Z, perror "lsh" (w.1, f))
      | (Some fp, f) => (1%Z, cat_loop (String.length fp) fp (w.1, f))
      end
  end.

(** The loop of [lsh_grep], [line_number] counting the [fgets] calls. *)
Fixpoint grep_loop (fuel : nat) (pattern : string) (line_number : nat)
    (fp : string) (w : world) : world :=
  match fuel with
  | O => w
  | S fuel' =>
      match fgets 1024 fp with
      | None => w
      | Some (bytes, fp') =>
          let buffer := until_nul bytes in
          let w := if strstr buffer pattern
                   then out (pretty line_number +:+ ": " +:+ buffer) w
                   else w in
          grep_loop fuel' pattern (line_number + 1) fp' w
      end
  end.

Definition lsh_grep : builtin := λ args w,
  match args !! 1, args !! 2 with
  | Some pattern, Some path =>
      match sys_fopen_r path w.2 with
      | (None, f) => (1%Z, perror "lsh" (w.1, f))
      | (Some fp, f) => (1%Z, grep_loop (String.length fp) pattern 1 fp (w.1, f))
      end
  | _, _ => (1%Z, err ("lsh: grep requires pattern and filename" +:+ nl) w)
  end.

Definition lsh_touch : builtin := λ args w,
  match args !! 1 with
  | None => (1%Z, err ("lsh: touch requires a filename" +:+ nl) w)
  | Some path =>
      let '(ok, f) := sys_fopen_a path w.2 in
      if ok then (1%Z, (w.1, f)) else (1%Z, perror "lsh" (w.1, f))
  end.

(** The first loop of [lsh_echo]:
    [while (args[i] != NULL && strcmp(args[i], ">") != 0) { printf("%s ", args[i]); i++; }]
    It returns the index it stops at. *)
Fixpoint echo_loop (rest : list string) (i : nat) (w : world) : nat * world :=
  match rest with
  | [] => (i, w)
  | a :: rest' =>
      if (strcmp a ">" =? 0)%Z then (i, w)
      else echo_loop rest' (S i) (out (a +:+ " ") w)
  end.

Definition lsh_echo : builtin := λ args w,
  match args !! 1 with
  | None => (1%Z, out nl w)
  | Some _ =>
      let '(i, w) := echo_loop (drop 1 args) 1 w in
      match args !! i, args !! (i + 1) with
      | Some _, Some path =>
          (* here [args[i]] is the redirection sign *)
          let data := foldr (λ a acc, a +:+ " " +:+ acc) EmptyString (take (i - 1) (drop 1 args)) in
          let '(ok, f) := sys_fopen_w path data w.2 in
          if ok then (1%Z, (w.1, f)) else (1%Z, perror "lsh" (w.1, f))
      | _, _ => (1%Z, out nl w)
      end
  end.

Definition lsh_rm : builtin := λ args w,
  match args !! 1 with
  | None => (1%Z, err ("lsh: rm requires a filename" +:+ nl) w)
  | Some path =>
      let '(ok, f) := sys_remove path w.2 in
      if ok then (1%Z, (w.1, f)) else (1%Z, perror "lsh" (w.1, f))
  end.

(** [int ( *builtin_func[]) (char ** )], in the order of [builtin_str]. *)
Definition builtin_func : list builtin :=
  [ lsh_cd; lsh_help; lsh_exit; lsh_ls; lsh_pwd; lsh_clear;
    lsh_history; lsh_cat; lsh_grep; lsh_touch; lsh_echo; lsh_rm ].

(** The search of [lsh_execute]:
    [for (i = 0; i < lsh_num_builtins(); i++) if (strcmp(args[0], builtin_str[i]) == 0) return ( *builtin_func[i])(args);]
    followed by [return lsh_launch(args);].  [n] counts the iterations left. *)
Fixpoint execute_loop (n i : nat) (arg0 : string) (args : list string) (w : world) : Z * world :=
  match n with
  | O => lsh_launch args w
  | S n' =>
      match builtin_str !! i, builtin_func !! i with
      | Some name, Some f =>
          if (strcmp arg0 name =? 0)%Z then f args w
          else execute_loop n' (S i) arg0 args w
      | _, _ => execute_loop n' (S i) arg0 args w
      end
  end.

(** [lsh_execute] (lines 490-505). *)
Definition lsh_execute (args : list string) (w : world) : Z * world :=
  match args !! 0 with
  | None => (1%Z, w)
  | Some arg0 => execute_loop lsh_num_builtins 0 arg0 args w
  end.

End Dispatcher.

(** ** What the edit keys mean

    The reading of a key sequence the line editor is checked against:
    backspace (127) removes the last character of the text, if any, every
    other key appends its character. *)

Definition edit (text : list ascii) (c : Z) : list ascii :=
  if (c =? 127)%Z then removelast text else text ++ [char_of_int c].

(** The text after the keys, starting from the empty line. *)
Definition typed (keys : list Z) : list ascii := foldl edit [] keys.

(** The text together with the greatest length it had on the way. *)
Definition edit_peak (tp : list ascii * nat) (c : Z) : list ascii * nat :=
  let text := edit tp.1 c in (text, tp.2 `max` length text).

Definition peak (keys : list Z) : nat := (foldl edit_peak ([], 0) keys).2.

(** ** Predicates of the proofs *)

(** [hist_repr hist l]: the store [hist] holds exactly the lines [l]. *)
Definition hist_repr (hist : History) (l : list string) : Prop :=
  0 < capacity hist ∧
  length (commands hist) = capacity hist ∧
  count hist = length l ∧
  length l ≤ capacity hist ∧
  take (count hist) (commands hist) = Some <$> l.

(** An invariant [I] of the loop head and a condition [Q] on the ways out:
    what a pass through the loop body has to establish. *)
Definition step_post (I : rl_state → Prop) (Q : outcome → Prop) (s : step) : Prop :=
  match s with
  | Next st => I st
  | Done o => Q o
  end.

(** The state of the editor after the keys that produced the text [tp.1],
    whose greatest length on the way was [tp.2]: the block has [bufsize]
    bytes, the text occupies the bytes below [position], which is inside the
    block, and [bufsize] is the least multiple of the increment above the
    greatest length. *)
Definition edit_inv (st : rl_state) (tp : list ascii * nat) : Prop :=
  length (buffer st) = bufsize st ∧
  position st = length tp.1 ∧
  take (position st) (buffer st) = Some <$> tp.1 ∧
  position st < bufsize st ∧
  bufsize st = LSH_RL_BUFSIZE * (1 + tp.2 / LSH_RL_BUFSIZE) ∧
  length tp.1 ≤ tp.2 ∧
  Forall (λ c, c ≠ NUL) tp.1.

(** ** Concrete inputs used by the examples *)

(** The byte sequences a terminal sends for the arrow keys. *)
Definition up_key : list Z := [27; 91; 65]%Z.
Definition down_key : list Z := [27; 91; 66]%Z.

Definition cooked : termios := mkTermios true true.

(** The process state at the first prompt: [orig_termios] is still the
    zero-initialised global, the terminal is in its line mode, nothing has
    been printed. *)
Definition shell_start (hist : History) : shell :=
  mkShell hist (mkTermios false false) cooked EmptyString EmptyString.

(** A heap that never refuses and a directory with no files. *)
Definition plain_env : env := mkEnv (λ _, true) ["."; ".."].

(** A heap on which the first request for more than 1024 bytes fails. *)
Definition tight_env : env := mkEnv (λ n, bool_decide (n ≤ 1024)) ["."; ".."].

(** The store after the two commands of the specification's scenario. *)
Definition ls_pwd : History := history_add_all history_init ["ls"; "pwd"].

(** A line of 1023 characters, as typed at the prompt. *)
Definition long_line : string := string_of_list_ascii (replicate 1023 "a"%char).

(** A directory of seventy files [f0] ... [f69], as [readdir] lists it. *)
Definition crowded_dir : list string :=
  "." :: ".." :: ((λ n : nat, "f" +:+ pretty n) <$> seq 0 70).

(** An outside world in which every call fails: no file can be opened, no
    directory entered and no process created. *)
Definition barren : Sys unit :=
  {| sys_strerror := λ _, "Operation not permitted";
     sys_chdir := λ _ f, (false, f);
     sys_opendir := λ _ f, (None, f);
     sys_getcwd := λ _ f, (None, f);
     sys_fopen_r := λ _ f, (None, f);
     sys_fopen_a := λ _ f, (false, f);
     sys_fopen_w := λ _ _ f, (false, f);
     sys_remove := λ _ f, (false, f);
     sys_fork := λ _ f, (false, f);
     sys_wait := λ f, f |}.

(** ** The tokenizer (lines 183-216) *)

(** [LSH_TOK_DELM], the string [" \t\r\n\a"]: space, tab, carriage return,
    newline and bell. *)
Definition LSH_TOK_DELM : string :=
  String " " (String (ascii_of_nat 9) (String CR (String LF
    (String (ascii_of_nat 7) EmptyString)))).

(** [s + strspn(s, delim)]: [s] without its leading delimiters. *)
Fixpoint skip_delims (s delim : string) : string :=
  match s with
  | EmptyString => EmptyString
  | String c rest => if strchr delim c then skip_delims rest delim else s
  end.

(** The token at the start of [s] and what [strtok] keeps for its next call:
    the token ends at the first delimiter, which is overwritten by a NUL, or
    at the end of the string. *)
Fixpoint take_token (s delim : string) : string * string :=
  match s with
  | EmptyString => (EmptyString, EmptyString)
  | String c rest =>
      if strchr delim c then (EmptyString, rest)
      else let '(token, rest') := take_token rest delim in (String c token, rest')
  end.

(** [strtok]: [s] is the text not yet scanned (the argument of the first
    call, the saved pointer of the later ones).  [None] is the NULL result. *)
Definition strtok (s delim : string) : option (string * string) :=
  match skip_delims s delim with
  | EmptyString => None
  | s' => Some (take_token s' delim)
  end.

(** How [lsh_split_line] ends: it returns the array, of which the model
    keeps the tokens before the NULL and the number of slots of the block,
    or it leaves through [exit], or it writes outside the block. *)
Inductive split_outcome :=
  | Split (tokens : list string) (bufsize : nat)
  | SplitExited
  | SplitFault.

(** The loop of [lsh_split_line]:
    [while (token != NULL) { tokens[position] = token; position++; if (position >= bufsize) {...realloc...} token = strtok(NULL, LSH_TOK_DELM); }]
    and the two statements after it.  [tokens] are the slots filled so far
    (so [position] is its length), [rest] is what [strtok] has still to
    scan, [alloc_ok n] tells whether a block of [n] pointers is granted.
    Every token takes at least one character, so [fuel] = the length of the
    line is enough (Lemma [split_loop_ok]). *)
Fixpoint split_loop (fuel : nat) (alloc_ok : nat → bool) (bufsize : nat)
    (tokens : list string) (rest : string) : split_outcome :=
  match strtok rest LSH_TOK_DELM with
  | None =>
      (* [tokens[position] = NULL; return tokens;] *)
      if decide (length tokens < bufsize) then Split tokens bufsize else SplitFault
  | Some (token, rest') =>
      match fuel with
      | O => SplitFault
      | S fuel' =>
          if decide (length tokens < bufsize) then
            let tokens := tokens ++ [token] in
            if decide (bufsize ≤ length tokens) then
              let bufsize := bufsize + LSH_TOK_BUFSIZE in
              if alloc_ok bufsize
              then split_loop fuel' alloc_ok bufsize tokens rest'
              else SplitExited
            else split_loop fuel' alloc_ok bufsize tokens rest'
          else SplitFault
      end
  end.

(** [lsh_split_line]. *)
Definition lsh_split_line (alloc_ok : nat → bool) (line : string) : split_outcome :=
  if alloc_ok LSH_TOK_BUFSIZE
  then split_loop (String.length line) alloc_ok LSH_TOK_BUFSIZE [] line
  else SplitExited.

(** The tokens joined again, each followed by one space: also the text
    [lsh_echo] prints for its arguments. *)
Definition spaced (tokens : list string) : string :=
  foldr (λ token text, token +:+ " " +:+ text) EmptyString tokens.

(** A word: not empty and free of the delimiters. *)
Definition word (token : string) : Prop :=
  token ≠ EmptyString ∧
  Forall (λ c, strchr LSH_TOK_DELM c = false) (list_ascii_of_string token).

(** The tokens [strtok] delivers from [rest] on, in order: the array
    [lsh_split_line] builds, without its bookkeeping. *)
Fixpoint tokens_of (fuel : nat) (rest : string) : list string :=
  match strtok rest LSH_TOK_DELM with
  | None => []
  | Some (token, rest') =>
      match fuel with
      | O => []
      | S fuel' => token :: tokens_of fuel' rest'
      end
  end.

(** A run of delimiters. *)
Definition blank (s : string) : Prop :=
  Forall (λ c, strchr LSH_TOK_DELM c = true) (list_ascii_of_string s).

(** ** Lines as [history_load] stores them *)

(** What every string that [history_load] hands to [history_add] satisfies:
    a C string without a newline that fits the 1024-byte buffer with its
    NUL. *)
Definition short_line (command : string) : Prop :=
  cstring command ∧ strchr command LF = false ∧ strlen command ≤ 1023.

(** ** States of the line editor *)

(** A state of the loop of [lsh_read_line] in which the block still has its
    first size, for the history [hist] and the terminal mode [t0] found at
    entry. *)
Definition at_prompt (hist : History) (t0 : termios) (st : rl_state) : Prop :=
  bufsize st = LSH_RL_BUFSIZE ∧
  length (buffer st) = LSH_RL_BUFSIZE ∧
  shell_history (sh st) = hist ∧
  orig_termios (sh st) = t0.

(** The state after a recall of entry [i], the string [command]: the buffer
    holds it, NUL-terminated, and the insertion point is at its end. *)
Definition recalled (hist : History) (t0 : termios) (i : nat) (command : string)
    (st : rl_state) : Prop :=
  at_prompt hist t0 st ∧
  history_pos st = i ∧
  position st = strlen command ∧
  take (strlen command + 1) (buffer st)
    = (Some <$> list_ascii_of_string command) ++ [Some NUL].

(** [k] presses of the up arrow. *)
Definition up_keys (k : nat) : list Z := concat (replicate k up_key).

(** [j] presses of the down arrow. *)
Definition down_keys (j : nat) : list Z := concat (replicate j down_key).

(** A line of 1024 characters, one more than the edit buffer holds with its
    NUL. *)
Definition line_1024 : string :=
  string_of_list_ascii (replicate 1024 "a"%char).

(** A key the loop of [lsh_read_line] has no branch for: a control
    character other than ESC, newline and tab, or [EOF] (-1). *)
Definition ignored_key (c : Z) : Prop :=
  (c < 32)%Z ∧ c ≠ 27%Z ∧ c ≠ 10%Z ∧ c ≠ 9%Z.

(** No byte of the block is a NUL. *)
Definition unterminated (cells : list (option ascii)) : Prop :=
  Forall (λ cell, cell ≠ Some NUL) cells.

(** ** What the builtins print *)

(** The lines [lsh_history] prints for the entries [l], numbered from
    [n]. *)
Fixpoint numbered (n : nat) (l : list string) : string :=
  match l with
  | [] => EmptyString
  | command :: rest => pretty n +:+ " " +:+ command +:+ nl +:+ numbered (S n) rest
  end.

(** The lines [lsh_grep] prints for a file of the lines [l], the first of
    them having the number [n]: the lines that contain [pattern], each with
    its number. *)
Fixpoint grep_lines (pattern : string) (n : nat) (l : list string) : string :=
  match l with
  | [] => EmptyString
  | line :: rest =>
      (if strstr line pattern then pretty n +:+ ": " +:+ line +:+ nl
       else EmptyString) +:+ grep_lines pattern (S n) rest
  end.

(** ** A small outside world

    Files in one directory, as pairs of a name and the bytes held; there is
    no other directory and no process can be created. *)

Fixpoint file_lookup (path : string) (fs : list (string * string)) : option string :=
  match fs with
  | [] => None
  | (name, bytes) :: rest =>
      if String.eqb name path then Some bytes else file_lookup path rest
  end.

Fixpoint file_remove (path : string) (fs : list (string * string)) : list (string * string) :=
  match fs with
  | [] => []
  | (name, bytes) :: rest =>
      if String.eqb name path then rest else (name, bytes) :: file_remove path rest
  end.

Definition flat_files : Sys (list (string * string)) :=
  {| sys_strerror := λ _, "No such file or directory";
     sys_chdir := λ _ fs, (false, fs);
     sys_opendir := λ path fs,
       (if String.eqb path "." then Some ("." :: ".." :: fs.*1) else None, fs);
     sys_getcwd := λ _ fs, (Some "/", fs);
     sys_fopen_r := λ path fs, (file_lookup path fs, fs);
     sys_fopen_a := λ path fs,
       (true, if file_lookup path fs is Some _ then fs
              else fs ++ [(path, EmptyString)]);
     sys_fopen_w := λ path data fs, (true, file_remove path fs ++ [(path, data)]);
     sys_remove := λ path fs,
       (if file_lookup path fs is Some _ then true else false,
        file_remove path fs);
     sys_fork := λ _ fs, (false, fs);
     sys_wait := λ fs, fs |}.

(** Two files, the second one hidden. *)
Definition two_files : list (string * string) :=
  [ ("notes.txt", lines_text ["buy milk"; "call home"; "milk the cow"]);
    (".secret", lines_text ["42"]) ].

(** ** One pass of the command loop (lines 67-74)

    [printf("> "); line = lsh_read_line(); args = lsh_split_line(line);
     status = lsh_execute(args);]
    The loop goes on while the status is not 0.  [e] is the heap and the
    directory as they are during the pass. *)

Section Loop.
Context {F : Type} `{Sys F}.

Inductive pass : Type :=
  | Pass (status : Z) (w : @world F) (rest : list Z)
      (* the three calls returned *)
  | ReadStopped (o : outcome) (f : F)
      (* [lsh_read_line] did not return: it waits for a key, has left the
         process, or has faulted *)
  | SplitStopped (o : split_outcome) (w : @world F) (rest : list Z).
      (* [lsh_split_line] has left the process *)

Definition lsh_loop_body (e : env) (w : @world F) (input : list Z) : pass :=
  match lsh_read_line e (printf "> " w.1) input with
  | Returned line st rest =>
      match lsh_split_line (alloc_ok e) line with
      | Split args _ =>
          let '(status, w') := lsh_execute args (sh st, w.2) in
          Pass status w' rest
      | o => SplitStopped o (sh st, w.2) rest
      end
  | o => ReadStopped o w.2
  end.

End Loop.

(** What a command leaves alone in the process state: the history and the
    two terminal settings. *)
Definition same_session (s s' : shell) : Prop :=
  shell_history s' = shell_history s ∧ tty s' = tty s ∧
  orig_termios s' = orig_termios s.

(** The key codes of a text. *)
Definition keys_of (text : string) : list Z :=
  (λ c, Z.of_nat (nat_of_ascii c)) <$> list_ascii_of_string text.

(** * Properties of the history store *)

Lemma omap_id_fmap_Some (l : list string) : omap id (Some <$> l) = l.
Proof. induction l as [|x l IH]; csimpl; [done|]. by rewrite IH. Qed.

Lemma hist_repr_list hist l : hist_repr hist l → history_list hist = l.
Proof.
  intros (_ & _ & _ & _ & Htake). unfold history_list.
  rewrite Htake. apply omap_id_fmap_Some.
Qed.

Lemma hist_repr_wf hist l : hist_repr hist l → hist_wf hist.
Proof.
  intros Hr. pose proof (hist_repr_list _ _ Hr) as Hl.
  destruct Hr as (Hcap & Hlen & Hcnt & Hle & Htake).
  unfold hist_wf. rewrite Hl. repeat split; [done|done|lia|done].
Qed.

Lemma hist_wf_repr hist : hist_wf hist → hist_repr hist (history_list hist).
Proof.
  intros (Hcap & Hlen & Hle & Htake). unfold hist_repr.
  assert (length (history_list hist) = count hist) as Hl.
  { apply (f_equal length) in Htake.
    rewrite length_take, length_fmap in Htake. lia. }
  repeat split; [done|done|lia|lia|done].
Qed.

Lemma history_init_repr : hist_repr history_init [].
Proof. unfold hist_repr, history_init, HISTORY_MAX; simpl. repeat split; lia. Qed.

Lemma history_init_wf : hist_wf history_init.
Proof. exact (hist_repr_wf _ _ history_init_repr). Qed.

(** The eviction loop moves the cells [i+1 .. i+n] one place down and leaves
    the others alone. *)
Lemma shift_down_lookup n : ∀ i cmds k,
  i + n < length cmds →
  shift_down n i cmds !! k =
    if decide (i ≤ k < i + n) then cmds !! S k else cmds !! k.
Proof.
  induction n as [|n IH]; intros i cmds k Hlen; simpl.
  { case_decide; [lia|done]. }
  rewrite IH by (rewrite length_insert; lia).
  destruct (cmds !! S i) as [x|] eqn:Hx.
  2:{ apply lookup_ge_None in Hx. lia. }
  simpl. repeat case_decide; try lia.
  - rewrite list_lookup_insert_ne by lia. done.
  - assert (k = i) as -> by lia.
    rewrite list_lookup_insert_eq by lia. done.
  - rewrite list_lookup_insert_ne by lia. done.
Qed.

Lemma shift_down_length n : ∀ i cmds, length (shift_down n i cmds) = length cmds.
Proof.
  induction n as [|n IH]; intros i cmds; simpl; [done|].
  by rewrite IH, length_insert.
Qed.

(** One append, in terms of the lines held. *)
Lemma history_add_repr hist l command :
  hist_repr hist l →
  hist_repr (history_add hist command)
    ((if decide (length l < capacity hist) then l else drop 1 l) ++ [command])
  ∧ capacity (history_add hist command) = capacity hist.
Proof.
  intros (Hcap & Hlen & Hcnt & Hle & Htake).
  unfold history_add. case_decide as Hfull; case_decide as Hroom; try lia; simpl.
  - (* at capacity: the oldest line goes *)
    assert (count hist = capacity hist) as Hc by lia.
    split; [|done]. unfold hist_repr; simpl.
    rewrite length_insert, shift_down_length, length_app, length_drop; simpl.
    repeat split; try lia.
    apply list_eq. intros k.
    destruct (decide (k < count hist)) as [Hk|Hk].
    2:{ rewrite lookup_take_ge by lia. symmetry. apply lookup_ge_None.
        rewrite length_fmap, length_app, length_drop; simpl. lia. }
    rewrite lookup_take_lt by lia.
    rewrite list_lookup_fmap.
    destruct (decide (k = count hist - 1)) as [->|Hne].
    + rewrite list_lookup_insert_eq by (rewrite shift_down_length; lia).
      rewrite lookup_app_r by (rewrite length_drop; lia).
      rewrite length_drop.
      replace (count hist - 1 - (length l - 1)) with 0 by lia. done.
    + rewrite list_lookup_insert_ne by lia.
      rewrite shift_down_lookup by lia.
      case_decide; [|lia].
      rewrite lookup_app_l by (rewrite length_drop; lia).
      rewrite lookup_drop. simpl.
      rewrite <- list_lookup_fmap, <- Htake.
      rewrite lookup_take_lt by lia. done.
  - (* room left: the line goes into slot [count] *)
    split; [|done]. unfold hist_repr; simpl.
    rewrite length_insert, length_app; simpl.
    repeat split; try lia.
    rewrite fmap_app; simpl.
    rewrite take_S_r with (x := Some command)
      by (apply list_lookup_insert_eq; lia).
    rewrite take_insert_ge by lia. by rewrite Htake.
Qed.

(** The representation invariant holds for every store the program builds. *)
Lemma history_add_wf hist command : hist_wf hist → hist_wf (history_add hist command).
Proof.
  intros Hwf. apply hist_wf_repr in Hwf.
  destruct (history_add_repr _ _ command Hwf) as [Hr _].
  exact (hist_repr_wf _ _ Hr).
Qed.

(** A whole sequence of appends keeps the newest [capacity] lines. *)
Lemma history_add_all_repr lines : ∀ hist l,
  hist_repr hist l →
  hist_repr (history_add_all hist lines)
    (drop (length l + length lines - capacity hist) (l ++ lines))
  ∧ capacity (history_add_all hist lines) = capacity hist.
Proof.
  induction lines as [|c lines IH]; intros hist l Hr; simpl.
  { pose proof Hr as (Hcap & Hlen & Hcnt & Hle & Htake).
    replace (length l + 0 - capacity hist) with 0 by lia.
    rewrite app_nil_r, drop_0. by split. }
  pose proof Hr as (Hcap & Hlen & Hcnt & Hle & Htake).
  destruct (history_add_repr hist l c Hr) as [Hr' Hcap'].
  destruct (IH _ _ Hr') as [IH1 IH2].
  unfold history_add_all in *. split; [|congruence].
  rewrite Hcap' in IH1.
  case_decide as Hroom.
  - rewrite length_app in IH1; simpl in IH1.
    rewrite <- app_assoc in IH1; simpl in IH1.
    replace (length l + S (length lines) - capacity hist)
      with (length l + 1 + length lines - capacity hist) by lia. done.
  - assert (length l = capacity hist) as Hl by lia.
    rewrite length_app, length_drop in IH1; simpl in IH1.
    rewrite <- app_assoc in IH1; simpl in IH1.
    replace (length l - 1 + 1 + length lines - capacity hist)
      with (length lines) in IH1 by lia.
    replace (length l + S (length lines) - capacity hist)
      with (1 + length lines) by lia.
    rewrite <- drop_drop.
    destruct l as [|x l]; [simpl in *; lia|]. simpl in *.
    rewrite drop_0 in *. done.
Qed.

(** The store of the specification's scenario is well formed. *)
Lemma ls_pwd_wf : hist_wf ls_pwd.
Proof.
  apply (hist_repr_wf _ ["ls"; "pwd"]).
  exact (proj1 (history_add_all_repr ["ls"; "pwd"] history_init []
                  history_init_repr)).
Qed.

(** A fresh store fed 1001 distinct lines keeps the last 1000 of them. *)
Example history_add_all_1001 :
  let lines := pretty <$> seq 1 1001 in
  history_list (history_add_all history_init lines) = pretty <$> seq 2 1000.
Proof. vm_compute. reflexivity. Qed.

(** C1. History Store bounding.  Whatever lines are appended to a fresh
    store, the count never exceeds the capacity of 1000 and the store holds
    the last 1000 lines appended (all of them when there were fewer), oldest
    first; one more append keeps the stored lines when there is room and
    otherwise drops exactly the oldest one, the rest moving down one place.
    The statement needs no assumption on the lines: it holds for non-empty
    lines in particular. *)
Theorem history_bounding (lines : list string) (command : string) :
  let hist := history_add_all history_init lines in
  count hist ≤ HISTORY_MAX ∧
  count hist = length lines `min` HISTORY_MAX ∧
  history_list hist = drop (length lines - HISTORY_MAX) lines ∧
  history_list (history_add hist command) =
    (if decide (count hist < HISTORY_MAX)
     then history_list hist
     else drop 1 (history_list hist)) ++ [command].
Proof.
  intros hist.
  destruct (history_add_all_repr lines _ _ history_init_repr) as [Hr Hcap].
  fold hist in Hr, Hcap. simpl in Hr, Hcap.
  pose proof (hist_repr_list _ _ Hr) as Hl.
  pose proof Hr as (_ & _ & Hcnt & Hle & _).
  rewrite length_drop in Hcnt, Hle. rewrite Hcap in Hle.
  destruct (history_add_repr hist _ command Hr) as [Hr' _].
  apply hist_repr_list in Hr'.
  rewrite length_drop, Hcap in Hr'.
  repeat split.
  - lia.
  - unfold HISTORY_MAX in *. lia.
  - done.
  - rewrite Hr', Hl, Hcnt.
    repeat case_decide; try done; unfold HISTORY_MAX in *; lia.
Qed.

(** C4, as stated, fails: appending the empty string to the fresh store
    changes the stored sequence (its length goes from 0 to 1). *)
Lemma history_add_empty_changes :
  history_list (history_add history_init EmptyString) ≠ history_list history_init.
Proof. vm_compute. discriminate. Qed.

(** * Properties of the completion engine *)

Lemma nat_of_ascii_NUL c : nat_of_ascii c = 0 → c = NUL.
Proof.
  intros Hc. rewrite <- (ascii_nat_embedding c), Hc. done.
Qed.

Lemma cstring_cons c s : cstring (String c s) ↔ c ≠ NUL ∧ cstring s.
Proof.
  unfold cstring. cbn [strchr].
  destruct (Ascii.eqb_spec NUL c) as [<-|Hne]; cbn [orb].
  - split; [discriminate | by intros [Hc _]].
  - split; [intros Hs; split; [congruence | done] | by intros [_ Hs]].
Qed.

Lemma cstring_empty : cstring EmptyString.
Proof. reflexivity. Qed.

Lemma ascii_diff_nonzero a b :
  a ≠ b → (Z.of_nat (nat_of_ascii a) - Z.of_nat (nat_of_ascii b))%Z ≠ 0%Z.
Proof.
  intros Hne Hz. apply Hne.
  rewrite <- (ascii_nat_embedding a), <- (ascii_nat_embedding b).
  f_equal. lia.
Qed.

(** On a C string [partial], the test of [get_completions] is the prefix
    test. *)
Lemma completes_prefix partial : ∀ name,
  cstring partial → completes partial name = String.prefix partial name.
Proof.
  unfold completes, strlen.
  induction partial as [|a p IH]; intros name Hc; simpl.
  { by destruct name. }
  apply cstring_cons in Hc as [Ha Hp].
  destruct name as [|b n]; simpl.
  - apply Z.eqb_neq. intros Hz. apply Ha, nat_of_ascii_NUL. lia.
  - destruct (Ascii.eqb_spec a b) as [->|Hne].
    + destruct (ascii_dec b b); [|done]. by apply IH.
    + destruct (ascii_dec a b); [done|].
      apply Z.eqb_neq. by apply ascii_diff_nonzero.
Qed.

(** The first loop appends the matching names, in table order. *)
Lemma builtin_loop_filter partial names : ∀ completions,
  builtin_loop partial names completions =
    completions ++ filter (λ n, completes partial n) names.
Proof.
  induction names as [|n names IH]; intros completions; simpl.
  { by rewrite filter_nil, app_nil_r. }
  rewrite filter_cons. destruct (completes partial n); simpl.
  - rewrite IH, <- app_assoc. done.
  - by rewrite IH.
Qed.

(** The second loop appends matching entries, in the order [readdir] gives
    them, until the candidate count reaches [LSH_TOK_BUFSIZE]. *)
Lemma readdir_loop_filter partial entries : ∀ completions,
  readdir_loop partial entries completions =
    completions ++
    take (LSH_TOK_BUFSIZE - length completions)
         (filter (λ n, completes partial n) entries).
Proof.
  induction entries as [|d entries IH]; intros completions; simpl.
  { by rewrite filter_nil, take_nil, app_nil_r. }
  rewrite filter_cons. case_decide as Hroom.
  - destruct (completes partial d); simpl.
    + rewrite IH, <- app_assoc, length_app. simpl.
      replace (LSH_TOK_BUFSIZE - length completions)
        with (S (LSH_TOK_BUFSIZE - (length completions + 1))) by lia.
      done.
    + by rewrite IH.
  - replace (LSH_TOK_BUFSIZE - length completions) with 0 by lia.
    by rewrite take_0, app_nil_r.
Qed.

Lemma builtin_matches_length partial :
  length (filter (λ n, completes partial n) builtin_str) ≤ 12.
Proof. etrans; [apply length_filter|]. done. Qed.

(** The candidate list in closed form. *)
Lemma get_completions_closed partial dir :
  (get_completions partial dir).1 =
    take LSH_TOK_BUFSIZE
      (filter (λ n, completes partial n) builtin_str ++
       filter (λ n, completes partial n) dir).
Proof.
  unfold get_completions. cbv zeta. cbn [fst].
  rewrite readdir_loop_filter, builtin_loop_filter, app_nil_l.
  pose proof (builtin_matches_length partial) as Hb.
  rewrite take_app.
  rewrite (take_ge (filter _ builtin_str)) by (unfold LSH_TOK_BUFSIZE; lia).
  done.
Qed.

Lemma filter_completes_prefix partial (l : list string) :
  cstring partial →
  filter (λ n, completes partial n) l =
  filter (λ n, String.prefix partial n = true) l.
Proof.
  intros Hc. apply list_filter_iff. intros n.
  rewrite completes_prefix by done. apply Is_true_true.
Qed.

(** In the directory of the specification's scenario the partial word [n]
    completes to the two files, in the order they are listed. *)
Example get_completions_notes :
  (get_completions "n" ["."; ".."; "notes.txt"; "numbers.csv"]).1
  = ["notes.txt"; "numbers.csv"].
Proof. reflexivity. Qed.

(** The empty partial word returns every builtin, then every entry. *)
Example get_completions_empty :
  (get_completions EmptyString ["."; ".."; "notes.txt"]).1
  = builtin_str ++ ["."; ".."; "notes.txt"].
Proof. reflexivity. Qed.

(** C5, as stated, fails: in a directory of seventy files [f0] ... [f69]
    the entry [f69] starts with the partial word [f] and is not among the
    candidates. *)
Lemma get_completions_omits_entry :
  "f69" ∈ crowded_dir ∧
  String.prefix "f" "f69" = true ∧
  "f69" ∉ (get_completions "f" crowded_dir).1.
Proof.
  split; [|split].
  - compute_done.
  - reflexivity.
  - compute_done.
Qed.

(** C5, amended.  For a partial word [p] (a C string) every candidate
    returned starts with [p]; the candidates are the builtin names starting
    with [p], in table order, followed by the directory entries starting
    with [p], in enumeration order, cut off after [LSH_TOK_BUFSIZE] = 64
    candidates; so when at most 64 names match, each builtin name and each
    directory entry starting with [p] appears, once per place it is listed. *)
Theorem get_completions_prefix (partial : string) (dir : list string) :
  cstring partial →
  let matching := filter (λ n, String.prefix partial n = true) in
  let found := (get_completions partial dir).1 in
  Forall (λ c, String.prefix partial c = true) found ∧
  found = take LSH_TOK_BUFSIZE (matching builtin_str ++ matching dir) ∧
  (length (matching builtin_str ++ matching dir) ≤ LSH_TOK_BUFSIZE →
   found = matching builtin_str ++ matching dir).
Proof.
  intros Hc matching found.
  assert (found = take LSH_TOK_BUFSIZE (matching builtin_str ++ matching dir))
    as Hfound.
  { unfold found, matching. rewrite get_completions_closed.
    by rewrite !filter_completes_prefix. }
  split; [|split].
  - rewrite Hfound. apply Forall_take, Forall_app. unfold matching.
    split; apply Forall_forall; intros c Hin;
      by apply list_elem_of_filter in Hin as [? _].
  - done.
  - intros Hlen. rewrite Hfound. by apply take_ge.
Qed.

(** C5, amended, in the directory of the specification's scenario. *)
Lemma get_completions_prefix_witness :
  cstring "n" ∧
  let dir := ["."; ".."; "notes.txt"; "numbers.csv"] in
  let matching := filter (λ n, String.prefix "n" n = true) in
  let found := (get_completions "n" dir).1 in
  Forall (λ c, String.prefix "n" c = true) found ∧
  found = take LSH_TOK_BUFSIZE (matching builtin_str ++ matching dir) ∧
  (length (matching builtin_str ++ matching dir) ≤ LSH_TOK_BUFSIZE →
   found = matching builtin_str ++ matching dir).
Proof.
  assert (cstring "n") as Hc.
  { reflexivity. }
  split; [exact Hc|].
  exact (get_completions_prefix "n" ["."; ".."; "notes.txt"; "numbers.csv"] Hc).
Defined.

(** With seventy matching entries the list stops at 64. *)
Example get_completions_crowded :
  length (get_completions "f" crowded_dir).1 = 64.
Proof. vm_compute. reflexivity. Qed.

(** The slot that receives the NULL terminator, [completions[count]], lies
    inside the block of [LSH_TOK_BUFSIZE] pointers unless the bound on the
    candidates was reached; then it is the slot right after the block. *)
Remark get_completions_terminator_slot (partial : string) (dir : list string) :
  let count := length (get_completions partial dir).1 in
  count ≤ LSH_TOK_BUFSIZE ∧
  (count = LSH_TOK_BUFSIZE ↔
   LSH_TOK_BUFSIZE ≤
     length (filter (λ n, completes partial n) builtin_str ++
             filter (λ n, completes partial n) dir)).
Proof.
  cbv zeta. rewrite get_completions_closed, length_take. lia.
Qed.

(** C10. The candidate list never holds more than [LSH_TOK_BUFSIZE] = 64
    entries: it is the matching builtin names followed by as many matching
    directory entries, in enumeration order, as fit below that bound; later
    entries are in neither the returned list nor the listing printed, which
    shows exactly the returned candidates. *)
Theorem get_completions_cap (partial : string) (dir : list string) :
  let builtins := filter (λ n, completes partial n) builtin_str in
  let found := get_completions partial dir in
  LSH_TOK_BUFSIZE = 64 ∧
  length found.1 ≤ LSH_TOK_BUFSIZE ∧
  found.1 = builtins ++
            take (LSH_TOK_BUFSIZE - length builtins)
                 (filter (λ n, completes partial n) dir) ∧
  found.2 = show_matches partial found.1.
Proof.
  intros builtins found.
  assert (found.1 = builtins ++
            take (LSH_TOK_BUFSIZE - length builtins)
                 (filter (λ n, completes partial n) dir)) as Hfound.
  { unfold found, get_completions. cbv zeta. cbn [fst].
    by rewrite readdir_loop_filter, builtin_loop_filter, app_nil_l. }
  pose proof (builtin_matches_length partial) as Hb. fold builtins in Hb.
  split; [done|]. split; [|split; [exact Hfound|done]].
  rewrite Hfound, length_app, length_take. unfold LSH_TOK_BUFSIZE. lia.
Qed.

(** * Properties of the history file *)

Lemma append_nil_l (b : string) : EmptyString +:+ b = b.
Proof. reflexivity. Qed.

Lemma append_cons (x : ascii) (a b : string) :
  String x a +:+ b = String x (a +:+ b).
Proof. reflexivity. Qed.

(** Pushes [+:+] below the constructors of its first argument. *)
Ltac push_append := rewrite ?append_cons, ?append_nil_l in *.

Lemma append_assoc (a b c : string) : (a +:+ b) +:+ c = a +:+ (b +:+ c).
Proof. induction a as [|x a IH]; push_append; [done|]. by rewrite IH. Qed.

Lemma append_empty_r (a : string) : a +:+ EmptyString = a.
Proof. induction a as [|x a IH]; push_append; [done|]. by rewrite IH. Qed.

Lemma length_append (a b : string) :
  String.length (a +:+ b) = String.length a + String.length b.
Proof. induction a as [|x a IH]; push_append; simpl; [done|]. by rewrite IH. Qed.

(** What the loop of [history_save] writes: the set slots among
    [i .. i+n-1], one line each. *)
Lemma save_loop_text n : ∀ i cmds fp,
  save_loop n i cmds fp = fp +:+ lines_text (omap id (take n (drop i cmds))).
Proof.
  induction n as [|n IH]; intros i cmds fp; simpl.
  { by rewrite append_empty_r. }
  rewrite IH. destruct (cmds !! i) as [slot|] eqn:Hi.
  - rewrite (drop_S _ _ _ Hi). simpl.
    destruct slot as [command|]; simpl.
    + by rewrite !append_assoc.
    + by rewrite append_empty_r.
  - apply lookup_ge_None in Hi.
    rewrite !drop_ge by lia. rewrite !take_nil. simpl. by rewrite !append_empty_r.
Qed.

Lemma history_save_text hist file :
  history_save hist true file = Some (lines_text (history_list hist)).
Proof.
  unfold history_save, history_list.
  by rewrite save_loop_text, drop_0.
Qed.

(** A line without a newline that fits the room is read whole, with its
    newline. *)
Lemma fgets_read_line command : ∀ room rest,
  strchr command LF = false →
  strlen command < room →
  fgets_read room (command +:+ String LF rest) = (command +:+ nl, rest).
Proof.
  unfold strlen.
  induction command as [|c s IH]; intros room rest Hlf Hroom; push_append.
  - destruct room as [|room]; [simpl in Hroom; lia|].
    cbn [fgets_read]. by rewrite Ascii.eqb_refl.
  - cbn [strchr] in Hlf. apply orb_false_iff in Hlf as [Hc Hs].
    cbn [String.length] in Hroom.
    destruct room as [|room]; [lia|]. cbn [fgets_read].
    rewrite Ascii.eqb_sym, Hc, IH by (done || lia). done.
Qed.

Lemma until_nul_line command :
  cstring command → until_nul (command +:+ nl) = command +:+ nl.
Proof.
  induction command as [|c s IH]; intros Hc; [done|].
  apply cstring_cons in Hc as [Hne Hs]. push_append. cbn [until_nul].
  destruct (Ascii.eqb_spec c NUL); [done|]. by rewrite IH.
Qed.

Lemma strcspn_line command :
  strchr command LF = false → strcspn (command +:+ nl) nl = strlen command.
Proof.
  unfold strlen. induction command as [|c s IH]; intros Hlf; [done|].
  cbn [strchr] in Hlf. apply orb_false_iff in Hlf as [Hc Hs].
  push_append. cbn [strcspn strchr String.length nl].
  rewrite Ascii.eqb_sym, Hc. cbn [orb]. by rewrite IH.
Qed.

Lemma substring_line command (tail : string) :
  substring 0 (strlen command) (command +:+ tail) = command.
Proof.
  unfold strlen. induction command as [|c s IH]; push_append; simpl.
  { by destruct tail. }
  by rewrite IH.
Qed.

(** Reading back a text of whole lines appends them one by one. *)
Lemma history_load_loop_lines l : ∀ fuel hist l0,
  Forall one_line l →
  hist_repr hist l0 →
  length l0 + length l ≤ capacity hist →
  String.length (lines_text l) ≤ fuel →
  hist_repr (history_load_loop fuel hist (lines_text l)) (l0 ++ l).
Proof.
  induction l as [|command l IH]; intros fuel hist l0 Hl Hr Hcap Hfuel.
  { rewrite app_nil_r. destruct fuel; done. }
  apply Forall_cons in Hl as [(Hc & Hlf & Hlen) Hl].
  cbn [lines_text foldr] in *. fold (lines_text l) in *.
  rewrite length_append in Hfuel. unfold nl in Hfuel. push_append.
  cbn [String.length] in Hfuel.
  destruct fuel as [|fuel]; [lia|]. cbn [history_load_loop].
  unfold fgets.
  destruct (command +:+ nl +:+ lines_text l) as [|c0 s0] eqn:Htext.
  { by destruct command. }
  rewrite <- Htext. clear c0 s0 Htext.
  unfold nl at 1. push_append.
  rewrite fgets_read_line by (done || lia).
  rewrite until_nul_line, strcspn_line, substring_line by done.
  destruct (history_add_repr hist l0 command Hr) as [Hr' Hcap'].
  simpl in Hcap.
  case_decide; [|lia].
  rewrite (assoc_L (++) l0 [command] l : l0 ++ command :: l = (l0 ++ [command]) ++ l).
  apply IH; try done.
  - rewrite Hcap', length_app. simpl. lia.
  - lia.
Qed.

Lemma history_list_length hist : length (history_list hist) ≤ count hist.
Proof.
  unfold history_list.
  assert (∀ l : list (option string), length (omap id l) ≤ length l) as Hle.
  { induction l as [|[x|] l IH]; csimpl; simpl; lia. }
  etrans; [apply Hle|]. rewrite length_take. lia.
Qed.

Lemma fgets_read_cons room c s :
  fgets_read (S room) (String c s) =
    if Ascii.eqb c LF then (String c EmptyString, s)
    else let '(got, rest) := fgets_read room s in (String c got, rest).
Proof. reflexivity. Qed.

Lemma fgets_read_rest room : ∀ fp,
  String.length (fgets_read room fp).2 ≤ String.length fp.
Proof.
  induction room as [|room IH]; intros fp.
  { by destruct fp. }
  destruct fp as [|c s]; [done|].
  rewrite fgets_read_cons. destruct (Ascii.eqb c LF); [simpl; lia|].
  specialize (IH s). destruct (fgets_read room s) as [got rest].
  simpl in *. lia.
Qed.

(** Every successful [fgets] shortens the stream. *)
Lemma fgets_read_shorter room c s :
  String.length (fgets_read (S room) (String c s)).2 ≤ String.length s.
Proof.
  rewrite fgets_read_cons. destruct (Ascii.eqb c LF); [simpl; lia|].
  pose proof (fgets_read_rest room s) as Hs.
  by destruct (fgets_read room s) as [got rest].
Qed.

(** The loop of [history_load] ends by itself: any fuel from the length of
    the file on gives the same store. *)
Lemma history_load_loop_fuel fuel1 : ∀ fuel2 hist fp,
  String.length fp ≤ fuel1 → String.length fp ≤ fuel2 →
  history_load_loop fuel1 hist fp = history_load_loop fuel2 hist fp.
Proof.
  induction fuel1 as [|fuel1 IH]; intros fuel2 hist fp H1 H2.
  { destruct fp; [|simpl in H1; lia]. by destruct fuel2. }
  destruct fuel2 as [|fuel2].
  { destruct fp; [done|simpl in H2; lia]. }
  cbn [history_load_loop]. unfold fgets.
  destruct fp as [|c s]; [done|].
  pose proof (fgets_read_shorter 1022 c s) as Hs.
  change (1024 - 1) with (S 1022).
  destruct (fgets_read (S 1022) (String c s)) as [bytes fp'].
  simpl in H1, H2, Hs. apply IH; lia.
Qed.

(** C6, as stated, fails: a store whose only line has 1023 characters is
    read back as two lines, the second one empty. *)
Lemma history_save_load_long_line :
  let hist := history_add history_init long_line in
  count hist ≤ capacity hist ∧
  history_list (history_load history_init (history_save hist true None))
    = [long_line; EmptyString] ∧
  history_list (history_load history_init (history_save hist true None))
    ≠ history_list hist.
Proof.
  assert (history_list
            (history_load history_init
               (history_save (history_add history_init long_line) true None))
          = [long_line; EmptyString]) as Hload.
  { vm_compute. reflexivity. }
  cbv zeta. split; [|split].
  - vm_compute. lia.
  - exact Hload.
  - rewrite Hload. vm_compute. discriminate.
Qed.

(** C6, amended.  For a well-formed store of at most [HISTORY_MAX] lines,
    each a C string of at most 1022 characters without a newline,
    [history_save] (its [fopen] succeeding, whatever the file held before)
    followed by [history_load] into a fresh store gives back the same lines
    in the same order. *)
Theorem history_save_load (hist : History) (file : option string) :
  hist_wf hist →
  count hist ≤ HISTORY_MAX →
  Forall one_line (history_list hist) →
  history_list (history_load history_init (history_save hist true file))
  = history_list hist.
Proof.
  intros _ Hcount Hlines.
  rewrite history_save_text. unfold history_load.
  apply hist_repr_list.
  apply (history_load_loop_lines _ _ history_init [] Hlines history_init_repr).
  - pose proof (history_list_length hist). simpl. lia.
  - done.
Qed.

(** C6, amended, for the store holding [ls] and [pwd]. *)
Lemma history_save_load_witness :
  hist_wf ls_pwd ∧
  count ls_pwd ≤ HISTORY_MAX ∧
  Forall one_line (history_list ls_pwd) ∧
  history_list (history_load history_init (history_save ls_pwd true None))
  = history_list ls_pwd.
Proof.
  pose proof ls_pwd_wf as Hwf.
  assert (count ls_pwd ≤ HISTORY_MAX) as Hcount by (vm_compute; lia).
  assert (Forall one_line (history_list ls_pwd)) as Hlines.
  { change (Forall one_line ["ls"; "pwd"]).
    repeat constructor; unfold strlen; simpl; lia. }
  split; [exact Hwf|]. split; [exact Hcount|]. split; [exact Hlines|].
  exact (history_save_load ls_pwd None Hwf Hcount Hlines).
Defined.

(** * Properties of the line editor *)

Section ReadLoop.
Variable e : env.

(** The proof rule for [read_loop]: if every branch of the body keeps [I] or
    leaves through [Q], and waiting for input in a state of [I] is in [Q],
    then the outcome of the loop is in [Q]. *)
Lemma read_loop_rule (I : rl_state → Prop) (Q : outcome → Prop) :
  (∀ st seq0 seq1, I st → step_post I Q (escape_sequence seq0 seq1 st)) →
  (∀ st rest, I st → Q (newline st rest)) →
  (∀ st, I st → step_post I Q (tab e st)) →
  (∀ st, I st → step_post I Q (backspace st)) →
  (∀ st c, I st → step_post I Q (other_key e c st)) →
  (∀ st, I st → Q (Reading st)) →
  ∀ input st, I st → Q (read_loop e st input).
Proof.
  intros Hesc Hnl Htab Hbs Hother Hread input.
  remember (length input) as n eqn:Hn.
  assert (length input ≤ n) as Hle by lia. clear Hn.
  revert input Hle.
  induction n as [|n IH]; intros input Hle st Hst.
  { destruct input; [|simpl in Hle; lia]. by apply Hread. }
  destruct input as [|c rest]; [by apply Hread|].
  simpl in Hle. cbn [read_loop].
  destruct (c =? 27)%Z.
  { destruct rest as [|seq0 [|seq1 rest']]; [by apply Hread..|].
    specialize (Hesc st seq0 seq1 Hst).
    destruct (escape_sequence seq0 seq1 st) as [st'|o]; [|done].
    apply IH; [simpl in Hle; lia|done]. }
  destruct (c =? 10)%Z; [by apply Hnl|].
  assert (∀ s, step_post I Q s →
               Q match s with Next st => read_loop e st rest | Done o => o end)
    as Hstep.
  { intros [st'|o] Hs; [|done]. apply IH; [lia|done]. }
  apply Hstep.
  destruct (c =? 9)%Z; [by apply Htab|].
  destruct (c =? 127)%Z; [by apply Hbs|].
  by apply Hother.
Qed.

End ReadLoop.

(** Unfolds the branches of the loop body down to their case analysis. *)
Ltac unfold_body :=
  unfold step_post, escape_sequence, up_arrow, down_arrow, recall, newline,
    tab, backspace, other_key, printable, grow, strcpy, store,
    set_position, set_history_pos, with_shell, with_history in *.

(** ** The terminal mode *)



(** C3, evaluated at the failing input: the heap refuses the first
    reallocation, 1024 characters are typed, and the program leaves through
    [exit] with the terminal still raw while [orig_termios] holds the line
    mode it found. *)
Lemma lsh_read_line_exit_leaves_raw :
  ∃ st,
    lsh_read_line tight_env (shell_start history_init) (replicate 1024 97%Z)
      = Exited st ∧
    is_raw (tty (sh st)) = true ∧
    orig_termios (sh st) = cooked ∧
    tty (sh st) ≠ orig_termios (sh st).
Proof.
  eexists. split; [vm_compute; reflexivity|].
  split; [reflexivity|]. split; [reflexivity|]. simpl. discriminate.
Qed.

(** ** Arrow keys *)

(** At the newest entry, and on the fresh line, the down arrow changes
    nothing: both tests of [down_arrow] are the same and both fail. *)
Lemma down_arrow_newest st :
  count (shell_history (sh st)) ≤ history_pos st + 1 →
  down_arrow st = Next st.
Proof.
  intros Hpos. unfold down_arrow.
  destruct (Z.ltb_spec (Z.of_nat (history_pos st))
              (Z.of_nat (count (shell_history (sh st))) - 1)); [lia|done].
Qed.

(** C2, evaluated at the failing input: with the history [ls], [pwd] the
    keys up, up, down, down leave [pwd] in the buffer, the insertion point
    after it; the second down arrow has no effect at all. *)
Lemma down_arrow_at_newest_keeps_line :
  ∃ st,
    lsh_read_line plain_env (shell_start ls_pwd)
      (up_key ++ up_key ++ down_key ++ down_key) = Reading st ∧
    lsh_read_line plain_env (shell_start ls_pwd)
      (up_key ++ up_key ++ down_key) = Reading st ∧
    c_str (buffer st) = Some "pwd" ∧
    position st = 3 ∧
    history_pos st = 1.
Proof.
  eexists. split; [vm_compute; reflexivity|].
  split; [vm_compute; reflexivity|].
  split; [vm_compute; reflexivity|]. split; reflexivity.
Qed.

(** A well-formed store has a string in every slot below [count]. *)
Lemma history_entry_wf hist i :
  hist_wf hist → i < count hist → is_Some (history_entry hist i).
Proof.
  intros (_ & Hlen & Hle & Htake) Hi. unfold history_entry.
  case_decide; [|lia].
  assert (take (count hist) (commands hist) !! i
          = (Some <$> history_list hist) !! i) as Hlook by (by rewrite Htake).
  rewrite lookup_take_lt, list_lookup_fmap in Hlook by done.
  destruct (history_list hist !! i) as [command|] eqn:Hcmd.
  - rewrite Hlook. simpl. by eexists.
  - simpl in Hlook. apply lookup_ge_None in Hlook. lia.
Qed.

(** The loop never touches the history, and the cursor stays within
    [0 .. count]; with a well-formed store no recall reads outside it. *)
Lemma read_loop_history_pos e hist input st :
  hist_wf hist →
  shell_history (sh st) = hist → history_pos st ≤ count hist →
  match read_loop e st input with
  | Fault f _ => f ≠ BadHistoryIndex
  | Reading st' =>
      shell_history (sh st') = hist ∧
      history_pos st' ≤ count (shell_history (sh st'))
  | _ => True
  end.
Proof.
  intros Hwf Hhist Hpos.
  apply (read_loop_rule e
    (λ st, shell_history (sh st) = hist ∧ history_pos st ≤ count hist)
    (λ o, match o with
          | Fault f _ => f ≠ BadHistoryIndex
          | Reading st' =>
              shell_history (sh st') = hist ∧
              history_pos st' ≤ count (shell_history (sh st'))
          | _ => True
          end)); try done.
  - intros st0 seq0 seq1 [H1 H2].
    unfold step_post, escape_sequence, up_arrow, down_arrow.
    assert (∀ tail p, p < count hist →
      match recall tail (set_history_pos p st0) with
      | Next st' => shell_history (sh st') = hist ∧ history_pos st' ≤ count hist
      | Done (Fault f _) => f ≠ BadHistoryIndex
      | Done (Reading st') =>
          shell_history (sh st') = hist ∧
          history_pos st' ≤ count (shell_history (sh st'))
      | Done _ => True
      end) as Hrecall.
    { intros tail p Hp. unfold recall. simpl. rewrite H1.
      destruct (history_entry_wf hist p Hwf Hp) as [command ->].
      unfold strcpy. case_decide; simpl; [split; [done|lia]|done]. }
    destruct (Ascii.eqb (char_of_int seq0) "["); [|done].
    destruct (Ascii.eqb (char_of_int seq1) "A").
    { case_decide; [apply Hrecall; lia|done]. }
    destruct (Ascii.eqb (char_of_int seq1) "B"); [|done].
    rewrite H1.
    destruct (Z.ltb_spec (Z.of_nat (history_pos st0))
                (Z.of_nat (count hist) - 1)); [apply Hrecall; lia|done].
  - intros st0 rest [H1 H2]. unfold_body.
    repeat case_match; simplify_eq; simpl; done.
  - intros st0 [H1 H2]. unfold_body.
    repeat case_match; simplify_eq; simpl; done.
  - intros st0 [H1 H2]. unfold_body.
    repeat case_match; simplify_eq; simpl; done.
  - intros st0 c [H1 H2]. unfold_body.
    repeat case_match; simplify_eq; simpl; done.
  - intros st0 [H1 H2]. split; [done|]. by rewrite H1.
Qed.

(** The first three steps of the specification's scenario: up shows [pwd],
    up again shows [ls], down shows [pwd]. *)
Example arrow_keys_scenario :
  ∃ st1 st2 st3,
    lsh_read_line plain_env (shell_start ls_pwd) up_key = Reading st1 ∧
    c_str (buffer st1) = Some "pwd" ∧ position st1 = 3 ∧
    lsh_read_line plain_env (shell_start ls_pwd) (up_key ++ up_key)
      = Reading st2 ∧
    c_str (buffer st2) = Some "ls" ∧ position st2 = 2 ∧
    lsh_read_line plain_env (shell_start ls_pwd) (up_key ++ up_key ++ down_key)
      = Reading st3 ∧
    c_str (buffer st3) = Some "pwd" ∧ position st3 = 3.
Proof.
  do 3 eexists.
  split; [vm_compute; reflexivity|]. split; [vm_compute; reflexivity|].
  split; [reflexivity|].
  split; [vm_compute; reflexivity|]. split; [vm_compute; reflexivity|].
  split; [reflexivity|].
  split; [vm_compute; reflexivity|]. split; [vm_compute; reflexivity|].
  reflexivity.
Qed.

(** Three up arrows on a history of two lines stop at the oldest one. *)
Example up_arrow_three_times :
  ∃ st,
    lsh_read_line plain_env (shell_start ls_pwd) (up_key ++ up_key ++ up_key)
      = Reading st ∧
    history_pos st = 0 ∧ c_str (buffer st) = Some "ls".
Proof.
  eexists. split; [vm_compute; reflexivity|].
  split; [reflexivity|]. vm_compute. reflexivity.
Qed.

(** C9. Up-arrow recall never underflows.  The up arrow does nothing when
    the history cursor is 0; whatever is typed, no recall reads
    [commands[history_pos]] outside the stored entries (the indices below
    [count]), the history itself is not changed while the line is edited,
    and the cursor stays within [0 .. count]. *)
Theorem up_arrow_in_bounds (e : env) (s : shell) (input : list Z) :
  hist_wf (shell_history s) →
  (∀ st, history_pos st = 0 → up_arrow st = Next st) ∧
  match lsh_read_line e s input with
  | Fault f _ => f ≠ BadHistoryIndex
  | Reading st =>
      shell_history (sh st) = shell_history s ∧
      history_pos st ≤ count (shell_history (sh st))
  | _ => True
  end.
Proof.
  intros Hwf. split.
  { intros st Hpos. unfold up_arrow. rewrite Hpos. done. }
  unfold lsh_read_line. destruct (alloc_ok e LSH_RL_BUFSIZE); [|done].
  by apply read_loop_history_pos.
Qed.

(** C9 for three up arrows on the history [ls], [pwd]. *)
Lemma up_arrow_in_bounds_witness :
  hist_wf (shell_history (shell_start ls_pwd)) ∧
  (∀ st, history_pos st = 0 → up_arrow st = Next st) ∧
  match lsh_read_line plain_env (shell_start ls_pwd)
          (up_key ++ up_key ++ up_key) with
  | Fault f _ => f ≠ BadHistoryIndex
  | Reading st =>
      shell_history (sh st) = shell_history (shell_start ls_pwd) ∧
      history_pos st ≤ count (shell_history (sh st))
  | _ => True
  end.
Proof.
  assert (hist_wf (shell_history (shell_start ls_pwd))) as Hwf
    by exact ls_pwd_wf.
  split; [exact Hwf|].
  exact (up_arrow_in_bounds plain_env (shell_start ls_pwd)
           (up_key ++ up_key ++ up_key) Hwf).
Defined.

(** ** Submitting a line *)

Lemma c_str_insert_NUL cells line :
  c_str (<[0 := Some NUL]> cells) = Some line → line = EmptyString.
Proof. destruct cells as [|cell cells]; simpl; congruence. Qed.

(** A return hands the line to [history_add] exactly when something is in
    the buffer; with the insertion point at 0 the line is empty and the
    history is the one the call started with. *)
Lemma read_loop_returned e hist input st :
  shell_history (sh st) = hist →
  match read_loop e st input with
  | Returned line st' _ =>
      (position st' = 0 → line = EmptyString ∧ shell_history (sh st') = hist) ∧
      (0 < position st' → shell_history (sh st') = history_add hist line)
  | _ => True
  end.
Proof.
  intros Hhist.
  apply (read_loop_rule e
    (λ st, shell_history (sh st) = hist)
    (λ o, match o with
          | Returned line st' _ =>
              (position st' = 0 →
               line = EmptyString ∧ shell_history (sh st') = hist) ∧
              (0 < position st' → shell_history (sh st') = history_add hist line)
          | _ => True
          end)); try done.
  - intros st0 seq0 seq1 H1. unfold_body.
    repeat case_match; simplify_eq; simpl; done.
  - intros st0 rest H1. unfold newline, store.
    case_decide as Hpos; [|done]. simpl.
    destruct (c_str (<[position st0:=Some NUL]> (buffer st0))) as [line|] eqn:Hline;
      [|done].
    case_decide as Hp; simpl.
    + split; [lia|]. intros _. by rewrite H1.
    + split; [|lia]. intros _. split; [|done].
      replace (position st0) with 0 in Hline by lia.
      by apply c_str_insert_NUL in Hline.
  - intros st0 H1. unfold_body.
    repeat case_match; simplify_eq; simpl; done.
  - intros st0 H1. unfold_body.
    repeat case_match; simplify_eq; simpl; done.
  - intros st0 c H1. unfold_body.
    repeat case_match; simplify_eq; simpl; done.
Qed.

(** C4, amended.  [history_add] has no test on the line: the empty string
    is stored like any other line, after the lines already held (the oldest
    one making room when the store is full).  The empty line is kept out of
    the history by [lsh_read_line]: when it returns with the insertion point
    at 0 the line is empty and the history is unchanged, and otherwise the
    line was appended. *)
Theorem empty_line_no_op (e : env) (s : shell) (input : list Z)
    (line : string) (st : rl_state) (rest : list Z) :
  hist_wf (shell_history s) →
  lsh_read_line e s input = Returned line st rest →
  history_list (history_add (shell_history s) EmptyString) =
    (if decide (count (shell_history s) < capacity (shell_history s))
     then history_list (shell_history s)
     else drop 1 (history_list (shell_history s))) ++ [EmptyString] ∧
  (position st = 0 →
   line = EmptyString ∧ shell_history (sh st) = shell_history s) ∧
  (0 < position st →
   shell_history (sh st) = history_add (shell_history s) line).
Proof.
  intros Hwf Hret. split.
  - apply hist_wf_repr in Hwf.
    destruct (history_add_repr _ _ EmptyString Hwf) as [Hr _].
    apply hist_repr_list in Hr. rewrite Hr.
    destruct Hwf as (_ & _ & Hcnt & _). rewrite <- Hcnt. done.
  - unfold lsh_read_line in Hret.
    destruct (alloc_ok e LSH_RL_BUFSIZE); [|done].
    pose proof (read_loop_returned e (shell_history s) input
      (with_shell enable_raw_mode
         (mkRl LSH_RL_BUFSIZE 0 (replicate LSH_RL_BUFSIZE None)
            (count (shell_history s)) s)) eq_refl) as Hloop.
    by rewrite Hret in Hloop.
Qed.

(** C4, amended, for Enter pressed on the fresh line. *)
Lemma empty_line_no_op_witness :
  hist_wf (shell_history (shell_start ls_pwd)) ∧
  match lsh_read_line plain_env (shell_start ls_pwd) [10%Z] with
  | Returned line st rest =>
      history_list (history_add ls_pwd EmptyString)
        = ["ls"; "pwd"; EmptyString] ∧
      (position st = 0 → line = EmptyString ∧ shell_history (sh st) = ls_pwd)
  | _ => False
  end.
Proof.
  assert (hist_wf (shell_history (shell_start ls_pwd))) as Hwf
    by exact ls_pwd_wf.
  split; [exact Hwf|].
  destruct (lsh_read_line plain_env (shell_start ls_pwd) [10%Z])
    as [line st rest|st|st|f st] eqn:Hret;
    [|vm_compute in Hret; discriminate..].
  destruct (empty_line_no_op plain_env (shell_start ls_pwd) [10%Z]
              line st rest Hwf Hret) as (Hadd & Hzero & _).
  split; [exact Hadd|exact Hzero].
Defined.

(** ** Typing into the edit buffer *)

(** Reduces the record projections and pairs only, leaving the arithmetic
    on the block size alone. *)
Ltac proj_simpl :=
  cbn [fst snd bufsize position buffer history_pos sh
       set_position set_history_pos with_shell] in *.

Lemma char_of_int_not_NUL c : (32 ≤ c ≤ 255)%Z → char_of_int c ≠ NUL.
Proof.
  intros Hc Heq. unfold char_of_int, NUL in Heq.
  apply (f_equal nat_of_ascii) in Heq.
  rewrite Z.mod_small in Heq by lia.
  rewrite !nat_ascii_embedding in Heq by lia. lia.
Qed.

Lemma length_removelast {A} (l : list A) : length (removelast l) = length l - 1.
Proof.
  induction l as [|x [|y l] IH]; [done..|].
  change (removelast (x :: y :: l)) with (x :: removelast (y :: l)).
  cbn [length] in *. lia.
Qed.

Lemma removelast_take {A} (l : list A) : removelast l = take (length l - 1) l.
Proof.
  induction l as [|x [|y l] IH]; [done..|].
  change (removelast (x :: y :: l)) with (x :: removelast (y :: l)).
  rewrite IH. cbn [length]. replace (S (S (length l)) - 1) with (S (S (length l) - 1)) by lia.
  done.
Qed.

(** Division by the increment does not move unless a multiple is crossed. *)
Lemma bufsize_same pk pk' :
  pk ≤ pk' → pk' < LSH_RL_BUFSIZE * (1 + pk / LSH_RL_BUFSIZE) →
  pk' / LSH_RL_BUFSIZE = pk / LSH_RL_BUFSIZE.
Proof.
  unfold LSH_RL_BUFSIZE. intros Hle Hlt.
  symmetry. apply (Nat.div_unique pk' 1024 (pk / 1024) (pk' - 1024 * (pk / 1024))).
  - pose proof (Nat.Div0.mul_div_le pk 1024). lia.
  - pose proof (Nat.Div0.mul_div_le pk 1024). lia.
Qed.

Lemma bufsize_next pk :
  (LSH_RL_BUFSIZE * (1 + pk / LSH_RL_BUFSIZE)) / LSH_RL_BUFSIZE
  = 1 + pk / LSH_RL_BUFSIZE.
Proof.
  unfold LSH_RL_BUFSIZE. rewrite Nat.mul_comm. by apply Nat.div_mul.
Qed.

Lemma bufsize_above pk : pk < LSH_RL_BUFSIZE * (1 + pk / LSH_RL_BUFSIZE).
Proof.
  unfold LSH_RL_BUFSIZE.
  pose proof (Nat.div_mod_eq pk 1024) as Hdm.
  pose proof (Nat.mod_upper_bound pk 1024). lia.
Qed.

(** Backspace keeps the invariant, for the text without its last
    character. *)
Lemma backspace_inv st tp :
  edit_inv st tp →
  ∃ st', backspace st = Next st' ∧ edit_inv st' (edit_peak tp 127%Z).
Proof.
  destruct tp as [text pk].
  intros (Hlen & Hpos & Htake & Hin & Hsize & Hpk & Hnul). proj_simpl.
  unfold backspace, edit_peak, edit. proj_simpl.
  change (127 =? 127)%Z with true. cbv iota.
  pose proof (length_removelast text) as Hrl.
  case_decide as Hp.
  - eexists. split; [reflexivity|].
    unfold edit_inv. proj_simpl.
    rewrite Nat.max_l by lia.
    split_and!; try lia; try done.
    + rewrite removelast_take, fmap_take, <- Htake, take_take.
      f_equal. lia.
    + rewrite removelast_take. by apply Forall_take.
  - eexists. split; [reflexivity|].
    assert (text = []) as -> by (destruct text; cbn [length] in *; [done|lia]).
    unfold edit_inv. proj_simpl. cbn [removelast length] in *.
    rewrite Nat.max_l by lia.
    split_and!; try lia; try done.
Qed.

(** A printable key keeps the invariant, for the text with the character
    appended; the block grows by [LSH_RL_BUFSIZE] exactly when the insertion
    point reaches its end. *)
Lemma other_key_inv e st tp c :
  (∀ n, alloc_ok e n = true) →
  (32 ≤ c ≤ 255)%Z → c ≠ 127%Z →
  edit_inv st tp →
  ∃ st', other_key e c st = Next st' ∧ edit_inv st' (edit_peak tp c) ∧
         bufsize st' =
           if decide (position st + 1 = bufsize st)
           then bufsize st + LSH_RL_BUFSIZE else bufsize st.
Proof.
  destruct tp as [text pk].
  intros Halloc Hc Hbs (Hlen & Hpos & Htake & Hin & Hsize & Hpk & Hnul).
  proj_simpl.
  unfold other_key, printable, store, edit_peak, edit. proj_simpl.
  destruct (Z.leb_spec 32 c) as [_|]; [|lia].
  destruct (Z.eqb_spec c 127) as [|_]; [done|].
  case_decide; [|lia]. proj_simpl.
  unfold grow. proj_simpl. rewrite Halloc.
  assert (take (position st + 1)
            (<[position st:=Some (char_of_int c)]> (buffer st))
          = Some <$> text ++ [char_of_int c]) as Htake'.
  { replace (position st + 1) with (S (position st)) by lia.
    rewrite take_S_r with (x := Some (char_of_int c))
      by (apply list_lookup_insert_eq; lia).
    rewrite take_insert_ge by lia. rewrite Htake, fmap_app. done. }
  assert (Forall (λ c0, c0 ≠ NUL) (text ++ [char_of_int c])) as Hnul'.
  { apply Forall_app. split; [done|].
    apply Forall_singleton. by apply char_of_int_not_NUL. }
  assert (length (text ++ [char_of_int c]) = length text + 1) as Hlen'.
  { rewrite length_app. done. }
  assert (pk < bufsize st) as Hlt by (rewrite Hsize; apply bufsize_above).
  case_decide as Hfull.
  - (* the insertion point has reached the end of the block *)
    assert (position st + 1 = bufsize st) as Heq by lia.
    eexists. split; [reflexivity|]. split.
    2:{ proj_simpl. case_decide; [done|lia]. }
    unfold edit_inv. proj_simpl.
    rewrite Hlen', length_app, length_insert, length_replicate.
    assert (pk `max` (length text + 1) = bufsize st) as -> by lia.
    split_and!; try lia; try done.
    + rewrite take_app_le by (rewrite length_insert; lia). done.
    + rewrite Hsize at 2. rewrite bufsize_next. lia.
  - eexists. split; [reflexivity|]. split.
    2:{ proj_simpl. case_decide; [lia|done]. }
    unfold edit_inv. proj_simpl.
    rewrite Hlen', length_insert.
    split_and!; try lia; try done.
    rewrite (bufsize_same pk) by lia. done.
Qed.

Lemma read_loop_plain_key e st c rest :
  (32 ≤ c ≤ 255)%Z →
  read_loop e st (c :: rest) =
    match (if (c =? 127)%Z then backspace st else other_key e c st) with
    | Next st' => read_loop e st' rest
    | Done o => o
    end.
Proof.
  intros Hc. cbn [read_loop].
  destruct (Z.eqb_spec c 27); [lia|].
  destruct (Z.eqb_spec c 10); [lia|].
  destruct (Z.eqb_spec c 9); [lia|]. done.
Qed.

(** Running the loop over printable keys and backspaces. *)
Lemma read_loop_keys e keys : ∀ st tp tail,
  (∀ n, alloc_ok e n = true) →
  Forall (λ c, (32 ≤ c ≤ 255)%Z) keys →
  edit_inv st tp →
  ∃ st', read_loop e st (keys ++ tail) = read_loop e st' tail ∧
         edit_inv st' (foldl edit_peak tp keys).
Proof.
  induction keys as [|c keys IH]; intros st tp tail Halloc Hkeys Hinv.
  { by exists st. }
  apply Forall_cons in Hkeys as [Hc Hkeys].
  cbn [app foldl]. rewrite read_loop_plain_key by done.
  destruct (Z.eqb_spec c 127) as [->|Hne].
  - destruct (backspace_inv st tp Hinv) as (st1 & -> & Hinv1).
    by apply IH.
  - destruct (other_key_inv e st tp c Halloc Hc Hne Hinv)
      as (st1 & -> & Hinv1 & _).
    by apply IH.
Qed.

Lemma foldl_edit_peak_fst keys : ∀ tp,
  (foldl edit_peak tp keys).1 = foldl edit tp.1 keys.
Proof.
  induction keys as [|c keys IH]; intros tp; [done|].
  cbn [foldl]. by rewrite IH.
Qed.

(** The C string in a block that holds [text], free of NUL, and a NUL
    right after it. *)
Lemma c_str_text text : ∀ cells,
  Forall (λ c, c ≠ NUL) text →
  take (length text) cells = Some <$> text →
  cells !! length text = Some (Some NUL) →
  c_str cells = Some (string_of_list_ascii text).
Proof.
  induction text as [|c text IH]; intros cells Hnul Htake Hend.
  - destruct cells as [|[c0|] cells]; simplify_eq/=. done.
  - apply Forall_cons in Hnul as [Hc Hnul].
    destruct cells as [|cell cells]; [done|].
    cbn [length take fmap list_fmap] in Htake. simplify_eq.
    cbn [c_str string_of_list_ascii].
    destruct (Ascii.eqb_spec c NUL); [done|].
    rewrite (IH cells); done.
Qed.

(** Newline in a state of the invariant returns the text. *)
Lemma newline_inv st tp rest :
  edit_inv st tp →
  ∃ st', newline st rest = Returned (string_of_list_ascii tp.1) st' rest ∧
         position st' = position st ∧ bufsize st' = bufsize st.
Proof.
  destruct tp as [text pk].
  intros (Hlen & Hpos & Htake & Hin & Hsize & Hpk & Hnul). proj_simpl.
  unfold newline, store. case_decide; [|lia]. proj_simpl.
  rewrite (c_str_text text).
  - case_decide; eexists; split_and!; reflexivity.
  - done.
  - rewrite <- Hpos, take_insert_ge by lia. done.
  - rewrite <- Hpos. apply list_lookup_insert_eq. lia.
Qed.

(** C7. Edit-buffer growth and content.  With a heap that grants every
    request, for every sequence of printable characters (codes 32 to 255,
    127 being backspace) of any length: while the keys are being typed the
    buffer holds, below the insertion point, exactly the text the keys
    produce; at newline that text is returned; the insertion point is inside
    the block, whose size is [LSH_RL_BUFSIZE * (1 + peak / LSH_RL_BUFSIZE)]
    for the greatest length [peak] the text has had: one increment for
    every multiple of [LSH_RL_BUFSIZE] the insertion point has reached. *)
Theorem lsh_read_line_typed (e : env) (s : shell) (keys rest : list Z) :
  (∀ n, alloc_ok e n = true) →
  Forall (λ c, (32 ≤ c ≤ 255)%Z) keys →
  ∃ st st',
    lsh_read_line e s keys = Reading st ∧
    take (position st) (buffer st) = Some <$> typed keys ∧
    lsh_read_line e s (keys ++ 10%Z :: rest)
      = Returned (string_of_list_ascii (typed keys)) st' rest ∧
    position st' = length (typed keys) ∧
    position st' < bufsize st' ∧
    bufsize st' = LSH_RL_BUFSIZE * (1 + peak keys / LSH_RL_BUFSIZE).
Proof.
  intros Halloc Hkeys. unfold lsh_read_line. rewrite Halloc.
  set (st0 := with_shell enable_raw_mode
                (mkRl LSH_RL_BUFSIZE 0 (replicate LSH_RL_BUFSIZE None)
                   (count (shell_history s)) s)).
  assert (edit_inv st0 ([], 0)) as Hinv0.
  { unfold edit_inv, st0. proj_simpl. rewrite length_replicate.
    split_and!; try done. unfold LSH_RL_BUFSIZE. lia. }
  destruct (read_loop_keys e keys st0 _ [] Halloc Hkeys Hinv0)
    as (st & Hrun & Hinv).
  destruct (read_loop_keys e keys st0 _ (10%Z :: rest) Halloc Hkeys Hinv0)
    as (st1 & Hrun1 & Hinv1).
  rewrite app_nil_r in Hrun.
  destruct (newline_inv st1 _ rest Hinv1) as (st' & Hret & Hpos & Hsize).
  exists st, st'.
  pose proof (foldl_edit_peak_fst keys ([], 0)) as Hfst. cbn [fst] in Hfst.
  fold (typed keys) in Hfst.
  destruct Hinv as (_ & _ & Htake & _).
  destruct Hinv1 as (_ & Hpos1 & _ & Hin1 & Hsize1 & _).
  rewrite Hfst in *.
  split_and!.
  - by rewrite Hrun.
  - done.
  - rewrite Hrun1. cbn [read_loop]. done.
  - lia.
  - lia.
  - rewrite Hsize, Hsize1. done.
Qed.

(** C7 for 1030 characters, a backspace and one more character. *)
Lemma lsh_read_line_typed_witness :
  let keys := (replicate 1030 97 ++ [127; 98])%Z in
  (∀ n, alloc_ok plain_env n = true) ∧
  Forall (λ c, (32 ≤ c ≤ 255)%Z) keys ∧
  ∃ st st',
    lsh_read_line plain_env (shell_start ls_pwd) keys = Reading st ∧
    take (position st) (buffer st) = Some <$> typed keys ∧
    lsh_read_line plain_env (shell_start ls_pwd) (keys ++ [10%Z])
      = Returned (string_of_list_ascii (typed keys)) st' [] ∧
    position st' = length (typed keys) ∧
    position st' < bufsize st' ∧
    bufsize st' = LSH_RL_BUFSIZE * (1 + peak keys / LSH_RL_BUFSIZE).
Proof.
  intros keys.
  assert (∀ n, alloc_ok plain_env n = true) as Halloc by reflexivity.
  assert (Forall (λ c, (32 ≤ c ≤ 255)%Z) keys) as Hkeys.
  { apply Forall_app. split.
    - apply Forall_replicate. lia.
    - repeat constructor; lia. }
  split; [exact Halloc|]. split; [exact Hkeys|].
  exact (lsh_read_line_typed plain_env (shell_start ls_pwd) keys []
           Halloc Hkeys).
Defined.

(** The same input evaluated: 1030 characters, a backspace and one more
    character give a line of 1030 characters in a block of 2048 bytes. *)
Example lsh_read_line_long_input :
  let keys := (replicate 1030 97 ++ [127; 98])%Z in
  ∃ st,
    lsh_read_line plain_env (shell_start history_init) (keys ++ [10%Z])
      = Returned (string_of_list_ascii (replicate 1029 "a"%char ++ ["b"%char]))
          st [] ∧
    bufsize st = 2048 ∧ peak keys = 1030.
Proof.
  eexists. split; [vm_compute; reflexivity|].
  split; vm_compute; reflexivity.
Qed.

(** * Properties of the dispatcher *)

(** On C strings [strcmp] answers 0 exactly for equal strings. *)
Lemma strcmp_eq a : ∀ b,
  cstring a → cstring b → (strcmp a b =? 0)%Z = bool_decide (a = b).
Proof.
  induction a as [|ca a IH]; intros b Ha Hb.
  - destruct b as [|cb b]; [done|].
    apply cstring_cons in Hb as [Hcb _]. cbn [strcmp].
    rewrite bool_decide_eq_false_2 by done.
    apply Z.eqb_neq. intros Hz. apply Hcb, nat_of_ascii_NUL. lia.
  - apply cstring_cons in Ha as [Hca Ha].
    destruct b as [|cb b]; cbn [strcmp].
    + rewrite bool_decide_eq_false_2 by done.
      apply Z.eqb_neq. intros Hz. apply Hca, nat_of_ascii_NUL. lia.
    + apply cstring_cons in Hb as [Hcb Hb].
      destruct (Ascii.eqb_spec ca cb) as [->|Hne].
      * rewrite IH by done. apply bool_decide_ext. split; congruence.
      * rewrite bool_decide_eq_false_2 by congruence.
        apply Z.eqb_neq. by apply ascii_diff_nonzero.
Qed.

Section DispatcherFacts.
Context {F : Type} `{Sys F}.

(** The search of [lsh_execute], written out for the twelve builtins. *)
Lemma lsh_execute_cases (arg0 : string) (rest : list string) (w : world) :
  cstring arg0 →
  let args := arg0 :: rest in
  lsh_execute args w =
    if bool_decide (arg0 = "cd") then lsh_cd args w
    else if bool_decide (arg0 = "help") then lsh_help args w
    else if bool_decide (arg0 = "exit") then lsh_exit args w
    else if bool_decide (arg0 = "ls") then lsh_ls args w
    else if bool_decide (arg0 = "pwd") then lsh_pwd args w
    else if bool_decide (arg0 = "clear") then lsh_clear args w
    else if bool_decide (arg0 = "history") then lsh_history args w
    else if bool_decide (arg0 = "cat") then lsh_cat args w
    else if bool_decide (arg0 = "grep") then lsh_grep args w
    else if bool_decide (arg0 = "touch") then lsh_touch args w
    else if bool_decide (arg0 = "echo") then lsh_echo args w
    else if bool_decide (arg0 = "rm") then lsh_rm args w
    else lsh_launch args w.
Proof.
  intros Hc args. subst args.
  cbv [lsh_execute execute_loop lsh_num_builtins builtin_str builtin_func
       lookup list_lookup length].
  rewrite !strcmp_eq by done. done.
Qed.

(** Every builtin but [lsh_exit] answers 1, and so does the launcher. *)
Lemma builtin_status (i : nat) (name : string) (f : builtin)
    (args : list string) (w : world) :
  builtin_str !! i = Some name → builtin_func !! i = Some f →
  (f args w).1 = (if bool_decide (name = "exit") then 0 else 1)%Z.
Proof.
  intros Hname Hf.
  do 12 (destruct i as [|i];
         [simplify_eq/=;
          unfold lsh_cd, lsh_help, lsh_exit, lsh_ls, lsh_pwd, lsh_clear,
            lsh_history, lsh_cat, lsh_grep, lsh_touch, lsh_echo, lsh_rm;
          repeat case_match; reflexivity|]).
  done.
Qed.

Lemma lsh_launch_status (args : list string) (w : world) :
  (lsh_launch args w).1 = 1%Z.
Proof. unfold lsh_launch. repeat case_match; reflexivity. Qed.

(** C8. Dispatcher continue/stop contract.  On the empty token list
    [lsh_execute] answers 1 (continue) and leaves the process state and the
    outside world as they are.  When the first token, a C string, is the
    name at some index of the builtin table, the function at that index is
    run on the full token list and its answer is the answer; a first token
    that is no builtin name goes to [lsh_launch].  The answer is 0 (stop)
    exactly when the first token is [exit]: every other builtin and every
    launch answer 1, whatever their arguments and whatever the world. *)
Theorem lsh_execute_contract (w : world) (arg0 : string) (rest : list string) :
  cstring arg0 →
  let args := arg0 :: rest in
  lsh_execute [] w = (1%Z, w) ∧
  (∀ i name f,
     builtin_str !! i = Some name → builtin_func !! i = Some f →
     arg0 = name → lsh_execute args w = f args w) ∧
  (arg0 ∉ builtin_str → lsh_execute args w = lsh_launch args w) ∧
  ((lsh_execute args w).1 = 0%Z ↔ arg0 = "exit") ∧
  (arg0 ≠ "exit" → (lsh_execute args w).1 = 1%Z) ∧
  (∀ i name f a w',
     builtin_str !! i = Some name → builtin_func !! i = Some f →
     (f a w').1 = (if bool_decide (name = "exit") then 0 else 1)%Z) ∧
  (∀ a w', (lsh_launch a w').1 = 1%Z).
Proof.
  intros Hc args.
  pose proof (lsh_execute_cases arg0 rest w Hc) as Hcases.
  fold args in Hcases. cbv zeta in Hcases.
  assert (∀ i name f,
            builtin_str !! i = Some name → builtin_func !! i = Some f →
            arg0 = name → lsh_execute args w = f args w) as Hhit.
  { intros i name f Hname Hf ->. rewrite Hcases.
    do 12 (destruct i as [|i]; [by simplify_eq/=|]). by simplify_eq/=. }
  assert (arg0 ∉ builtin_str → lsh_execute args w = lsh_launch args w) as Hmiss.
  { intros Hnot. rewrite Hcases.
    repeat (case_bool_decide as Heq;
            [exfalso; apply Hnot; rewrite Heq; compute_done|clear Heq]).
    done. }
  assert ((lsh_execute args w).1 = (if bool_decide (arg0 = "exit") then 0 else 1)%Z)
    as Hstatus.
  { destruct (decide (arg0 ∈ builtin_str)) as [Hin|Hnot].
    - apply list_elem_of_lookup in Hin as [i Hname].
      assert (is_Some (builtin_func (F:=F) !! i)) as [f Hf].
      { apply lookup_lt_is_Some. apply lookup_lt_Some in Hname. done. }
      rewrite (Hhit i arg0 f Hname Hf eq_refl).
      by apply (builtin_status i).
    - rewrite (Hmiss Hnot), lsh_launch_status.
      rewrite bool_decide_eq_false_2; [done|].
      intros ->. apply Hnot. compute_done. }
  clear Hcases. split_and!.
  - done.
  - exact Hhit.
  - exact Hmiss.
  - rewrite Hstatus. case_bool_decide; split; done.
  - intros Hne. rewrite Hstatus. by case_bool_decide.
  - intros i name f a w'. apply builtin_status.
  - intros a w'. apply lsh_launch_status.
Qed.

End DispatcherFacts.

(** C8 for the token list [exit], in the world where every call fails. *)
Lemma lsh_execute_contract_witness :
  let w : @world unit := (shell_start ls_pwd, tt) in
  let args := ["exit"] in
  cstring "exit" ∧
  @lsh_execute unit barren [] w = (1%Z, w) ∧
  (∀ i name f,
     builtin_str !! i = Some name → @builtin_func unit barren !! i = Some f →
     "exit" = name → @lsh_execute unit barren args w = f args w) ∧
  ("exit" ∉ builtin_str →
   @lsh_execute unit barren args w = @lsh_launch unit barren args w) ∧
  ((@lsh_execute unit barren args w).1 = 0%Z ↔ "exit" = "exit") ∧
  ("exit" ≠ "exit" → (@lsh_execute unit barren args w).1 = 1%Z) ∧
  (∀ i name f a w',
     builtin_str !! i = Some name → @builtin_func unit barren !! i = Some f →
     (f a w').1 = (if bool_decide (name = "exit") then 0 else 1)%Z) ∧
  (∀ a w', (@lsh_launch unit barren a w').1 = 1%Z).
Proof.
  intros w args. split; [reflexivity|].
  exact (@lsh_execute_contract unit barren w "exit" [] eq_refl).
Defined.

(** The two end-to-end cases of the specification, evaluated in the world
    where every call fails. *)
Example lsh_execute_exit_and_empty :
  let w : @world unit := (shell_start ls_pwd, tt) in
  @lsh_execute unit barren ["exit"] w = (0%Z, w) ∧
  @lsh_execute unit barren [] w = (1%Z, w) ∧
  (@lsh_execute unit barren ["nosuchprogram"] w).1 = 1%Z.
Proof. split_and!; reflexivity. Qed.

(** * Properties of the tokenizer *)

Lemma skip_delims_shorter s delim :
  String.length (skip_delims s delim) ≤ String.length s.
Proof.
  induction s as [|c s IH]; [done|]. cbn [skip_delims].
  destruct (strchr delim c); cbn [String.length] in *; lia.
Qed.

(** What is left after the leading delimiters is empty or starts with a
    character that is no delimiter. *)
Lemma skip_delims_head s delim c s' :
  skip_delims s delim = String c s' → strchr delim c = false.
Proof.
  induction s as [|d s IH]; [done|]. cbn [skip_delims].
  destruct (strchr delim d) eqn:Hd; [done|].
  intros Heq. by simplify_eq.
Qed.

Lemma take_token_shorter s delim :
  String.length (take_token s delim).2 ≤ String.length s.
Proof.
  induction s as [|c s IH]; [done|]. cbn [take_token].
  destruct (strchr delim c); [simpl; lia|].
  destruct (take_token s delim) as [token rest]. simpl in *. lia.
Qed.

Lemma take_token_chars s delim :
  Forall (λ c, strchr delim c = false)
    (list_ascii_of_string (take_token s delim).1).
Proof.
  induction s as [|c s IH]; [constructor|]. cbn [take_token].
  destruct (strchr delim c) eqn:Hc; [constructor|].
  destruct (take_token s delim) as [token rest]. simpl in *.
  by constructor.
Qed.

(** A successful [strtok] yields a word and shortens the text. *)
Lemma strtok_word s token rest :
  strtok s LSH_TOK_DELM = Some (token, rest) →
  word token ∧ String.length rest < String.length s.
Proof.
  unfold strtok. pose proof (skip_delims_shorter s LSH_TOK_DELM) as Hskip.
  destruct (skip_delims s LSH_TOK_DELM) as [|c s'] eqn:Hs; [done|].
  apply skip_delims_head in Hs.
  pose proof (take_token_chars (String c s') LSH_TOK_DELM) as Hchars.
  pose proof (take_token_shorter s' LSH_TOK_DELM) as Hrest.
  cbn [take_token] in *. rewrite Hs in *.
  destruct (take_token s' LSH_TOK_DELM) as [token' rest'].
  intros Heq. simplify_eq. cbn [fst snd String.length] in *.
  split; [split; [done|exact Hchars]|lia].
Qed.

Lemma tok_bufsize_above n : n < LSH_TOK_BUFSIZE * (1 + n / LSH_TOK_BUFSIZE).
Proof.
  unfold LSH_TOK_BUFSIZE.
  pose proof (Nat.div_mod_eq n 64). pose proof (Nat.mod_upper_bound n 64). lia.
Qed.

Lemma tok_bufsize_step n :
  LSH_TOK_BUFSIZE * (1 + S n / LSH_TOK_BUFSIZE) =
    if decide (LSH_TOK_BUFSIZE * (1 + n / LSH_TOK_BUFSIZE) ≤ S n)
    then LSH_TOK_BUFSIZE * (1 + n / LSH_TOK_BUFSIZE) + LSH_TOK_BUFSIZE
    else LSH_TOK_BUFSIZE * (1 + n / LSH_TOK_BUFSIZE).
Proof.
  unfold LSH_TOK_BUFSIZE.
  pose proof (Nat.div_mod_eq n 64). pose proof (Nat.mod_upper_bound n 64).
  pose proof (Nat.div_mod_eq (S n) 64). pose proof (Nat.mod_upper_bound (S n) 64).
  case_decide; nia.
Qed.

(** The loop with a heap that grants every request: it returns the tokens
    [strtok] delivers, every slot it fills is inside the block, and so is
    the slot of the terminator. *)
Lemma split_loop_ok alloc fuel : ∀ tokens rest,
  (∀ n, alloc n = true) →
  String.length rest ≤ fuel →
  split_loop fuel alloc (LSH_TOK_BUFSIZE * (1 + length tokens / LSH_TOK_BUFSIZE))
    tokens rest
  = Split (tokens ++ tokens_of fuel rest)
      (LSH_TOK_BUFSIZE *
         (1 + length (tokens ++ tokens_of fuel rest) / LSH_TOK_BUFSIZE)).
Proof.
  induction fuel as [|fuel IH]; intros tokens rest Halloc Hfuel.
  - destruct rest; [|simpl in Hfuel; lia].
    cbn [split_loop tokens_of].
    change (strtok EmptyString LSH_TOK_DELM) with (@None (string * string)).
    pose proof (tok_bufsize_above (length tokens)).
    cbv iota. rewrite app_nil_r. case_decide; [done|lia].
  - cbn [split_loop tokens_of].
    pose proof (tok_bufsize_above (length tokens)) as Habove.
    destruct (strtok rest LSH_TOK_DELM) as [[token rest']|] eqn:Htok.
    2:{ rewrite app_nil_r. case_decide; [done|lia]. }
    apply strtok_word in Htok as [Hword Hshort].
    case_decide; [|lia].
    pose proof (tok_bufsize_step (length tokens)) as Hstep.
    assert (length (tokens ++ [token]) = S (length tokens)) as Hlen.
    { rewrite length_app. simpl. lia. }
    pose proof (IH (tokens ++ [token]) rest' Halloc ltac:(lia)) as Hrun.
    rewrite Hlen, <- app_assoc in Hrun. cbn [app] in Hrun.
    rewrite Hlen.
    case_decide as Hfull.
    + rewrite Halloc, <- Hstep. exact Hrun.
    + rewrite <- Hstep. exact Hrun.
Qed.

Lemma tokens_of_words fuel : ∀ rest, Forall word (tokens_of fuel rest).
Proof.
  induction fuel as [|fuel IH]; intros rest; cbn [tokens_of];
    destruct (strtok rest LSH_TOK_DELM) as [[token rest']|] eqn:Htok;
    try constructor.
  - by apply strtok_word in Htok as [Hword _].
  - apply IH.
Qed.

(** Any fuel from the length of the text on gives the same tokens. *)
Lemma tokens_of_fuel fuel1 : ∀ fuel2 rest,
  String.length rest ≤ fuel1 → String.length rest ≤ fuel2 →
  tokens_of fuel1 rest = tokens_of fuel2 rest.
Proof.
  induction fuel1 as [|fuel1 IH]; intros fuel2 rest H1 H2;
    destruct fuel2 as [|fuel2]; cbn [tokens_of];
    destruct (strtok rest LSH_TOK_DELM) as [[token rest']|] eqn:Htok;
    try done; apply strtok_word in Htok as [_ Hshort]; try lia.
  f_equal. apply IH; lia.
Qed.

Lemma skip_delims_blank pad s :
  blank pad → skip_delims (pad +:+ s) LSH_TOK_DELM = skip_delims s LSH_TOK_DELM.
Proof.
  unfold blank. induction pad as [|c pad IH]; intros Hpad; [done|].
  cbn [list_ascii_of_string] in Hpad. apply Forall_cons in Hpad as [Hc Hpad].
  push_append. cbn [skip_delims]. rewrite Hc. by apply IH.
Qed.

Lemma take_token_word token : ∀ rest,
  Forall (λ c, strchr LSH_TOK_DELM c = false) (list_ascii_of_string token) →
  take_token (token +:+ String " " rest) LSH_TOK_DELM = (token, rest).
Proof.
  induction token as [|c token IH]; intros rest Hchars; push_append.
  { done. }
  cbn [list_ascii_of_string] in Hchars.
  apply Forall_cons in Hchars as [Hc Hchars].
  cbn [take_token]. rewrite Hc, IH by done. done.
Qed.

(** A word followed by a space is the next token, whatever blanks come
    before it. *)
Lemma strtok_spaced pad token rest :
  blank pad → word token →
  strtok (pad +:+ token +:+ String " " rest) LSH_TOK_DELM = Some (token, rest).
Proof.
  intros Hpad [Hne Hchars]. unfold strtok.
  rewrite skip_delims_blank by done.
  destruct token as [|c token]; [done|].
  pose proof Hchars as Hchars'.
  cbn [list_ascii_of_string] in Hchars'.
  apply Forall_cons in Hchars' as [Hc _].
  push_append. cbn [skip_delims]. rewrite Hc.
  rewrite <- append_cons. by rewrite take_token_word.
Qed.

Lemma strtok_blank pad : blank pad → strtok pad LSH_TOK_DELM = None.
Proof.
  intros Hpad. unfold strtok.
  rewrite <- (append_empty_r pad), skip_delims_blank by done. done.
Qed.

(** Splitting words joined by single spaces gives the words back. *)
Lemma tokens_of_spaced tokens : ∀ fuel pad,
  blank pad → Forall word tokens →
  String.length (pad +:+ spaced tokens) ≤ fuel →
  tokens_of fuel (pad +:+ spaced tokens) = tokens.
Proof.
  induction tokens as [|token tokens IH]; intros fuel pad Hpad Hwords Hfuel.
  - cbn [spaced foldr]. rewrite append_empty_r.
    destruct fuel; cbn [tokens_of]; by rewrite strtok_blank.
  - apply Forall_cons in Hwords as [Hword Hwords].
    cbn [spaced foldr] in *. fold (spaced tokens) in *.
    change (" " +:+ spaced tokens) with (String " " (spaced tokens)) in *.
    pose proof (strtok_spaced pad token (spaced tokens) Hpad Hword) as Htok.
    rewrite !length_append in Hfuel. cbn [String.length] in Hfuel.
    destruct fuel as [|fuel]; [lia|].
    cbn [tokens_of]. rewrite Htok. f_equal.
    rewrite <- (append_nil_l (spaced tokens)).
    apply IH; [constructor|done|].
    rewrite append_nil_l. lia.
Qed.

(** X1. [lsh_split_line] with a heap that grants every request returns the
    tokens [strtok] delivers: each is non-empty and holds no delimiter, the
    slots filled and the slot of the NULL terminator lie inside the block,
    and the block has [LSH_TOK_BUFSIZE] slots for every 64 tokens begun. *)
Theorem lsh_split_line_words (alloc : nat → bool) (line : string) :
  (∀ n, alloc n = true) →
  ∃ tokens bufsize,
    lsh_split_line alloc line = Split tokens bufsize ∧
    tokens = tokens_of (String.length line) line ∧
    Forall word tokens ∧
    length tokens < bufsize ∧
    bufsize = LSH_TOK_BUFSIZE * (1 + length tokens / LSH_TOK_BUFSIZE).
Proof.
  intros Halloc. unfold lsh_split_line. rewrite Halloc.
  pose proof (split_loop_ok alloc (String.length line) [] line Halloc
                (Nat.le_refl _)) as Hrun.
  change (LSH_TOK_BUFSIZE * (1 + length (@nil string) / LSH_TOK_BUFSIZE))
    with LSH_TOK_BUFSIZE in Hrun.
  rewrite app_nil_l in Hrun.
  eexists _, _. split; [exact Hrun|].
  split; [done|]. split; [apply tokens_of_words|].
  split; [apply tok_bufsize_above|done].
Qed.

(** X1 for a line of three words. *)
Lemma lsh_split_line_words_witness :
  (∀ n, (λ _ : nat, true) n = true) ∧
  ∃ tokens bufsize,
    lsh_split_line (λ _, true) "grep -n  main.c" = Split tokens bufsize ∧
    tokens = tokens_of (String.length "grep -n  main.c") "grep -n  main.c" ∧
    Forall word tokens ∧
    length tokens < bufsize ∧
    bufsize = LSH_TOK_BUFSIZE * (1 + length tokens / LSH_TOK_BUFSIZE).
Proof.
  assert (∀ n, (λ _ : nat, true) n = true) as Halloc by reflexivity.
  split; [exact Halloc|].
  exact (lsh_split_line_words (λ _, true) "grep -n  main.c" Halloc).
Defined.

(** The tokens of that line. *)
Example lsh_split_line_grep :
  lsh_split_line (λ _, true) "grep -n  main.c" = Split ["grep"; "-n"; "main.c"] 64.
Proof. vm_compute. reflexivity. Qed.

(** X2. Words joined by single spaces, after any run of leading delimiters,
    are split into exactly those words; in particular a line of delimiters
    only, or the empty line, gives the empty token list. *)
Theorem lsh_split_line_spaced (alloc : nat → bool) (pad : string)
    (tokens : list string) :
  (∀ n, alloc n = true) → blank pad → Forall word tokens →
  lsh_split_line alloc (pad +:+ spaced tokens)
  = Split tokens (LSH_TOK_BUFSIZE * (1 + length tokens / LSH_TOK_BUFSIZE)).
Proof.
  intros Halloc Hpad Hwords. unfold lsh_split_line. rewrite Halloc.
  pose proof (split_loop_ok alloc (String.length (pad +:+ spaced tokens)) []
                (pad +:+ spaced tokens) Halloc (Nat.le_refl _)) as Hrun.
  change (LSH_TOK_BUFSIZE * (1 + length (@nil string) / LSH_TOK_BUFSIZE))
    with LSH_TOK_BUFSIZE in Hrun.
  rewrite app_nil_l, tokens_of_spaced in Hrun by done. exact Hrun.
Qed.

Lemma word_ls : word "ls".
Proof. split; [done|]. repeat constructor. Qed.

(** X2 for the line of one word after two blanks. *)
Lemma lsh_split_line_spaced_witness :
  (∀ n, (λ _ : nat, true) n = true) ∧ blank "  " ∧ Forall word ["ls"] ∧
  lsh_split_line (λ _, true) ("  " +:+ spaced ["ls"])
  = Split ["ls"] (LSH_TOK_BUFSIZE * (1 + length ["ls"] / LSH_TOK_BUFSIZE)).
Proof.
  assert (∀ n, (λ _ : nat, true) n = true) as Halloc by reflexivity.
  assert (blank "  ") as Hpad by (repeat constructor).
  assert (Forall word ["ls"]) as Hwords by (repeat constructor; apply word_ls).
  split; [exact Halloc|]. split; [exact Hpad|]. split; [exact Hwords|].
  exact (lsh_split_line_spaced (λ _, true) "  " ["ls"] Halloc Hpad Hwords).
Defined.

Lemma split_loop_safe alloc fuel : ∀ bufsize tokens rest,
  String.length rest ≤ fuel →
  length tokens < bufsize →
  match split_loop fuel alloc bufsize tokens rest with
  | Split tokens' bufsize' => length tokens' < bufsize'
  | SplitExited => ∃ n, alloc n = false
  | SplitFault => False
  end.
Proof.
  induction fuel as [|fuel IH]; intros bufsize tokens rest Hfuel Hin.
  - destruct rest; [|simpl in Hfuel; lia].
    cbn [split_loop].
    change (strtok EmptyString LSH_TOK_DELM) with (@None (string * string)).
    cbv iota. by case_decide.
  - cbn [split_loop].
    destruct (strtok rest LSH_TOK_DELM) as [[token rest']|] eqn:Htok.
    2:{ by case_decide. }
    apply strtok_word in Htok as [_ Hshort].
    case_decide; [|lia].
    assert (length (tokens ++ [token]) = S (length tokens)) as Hlen.
    { rewrite length_app. simpl. lia. }
    case_decide.
    + destruct (alloc (bufsize + LSH_TOK_BUFSIZE)) eqn:Halloc; [|by eexists].
      apply IH; [lia|]. rewrite Hlen. unfold LSH_TOK_BUFSIZE. lia.
    + apply IH; [lia|]. lia.
Qed.

(** X3. Whatever the heap answers and whatever the line holds,
    [lsh_split_line] never stores a token or the terminator outside its
    block: it returns with the terminator slot inside the block, or it
    leaves through [exit] after an allocation was refused. *)
Theorem lsh_split_line_safe (alloc : nat → bool) (line : string) :
  match lsh_split_line alloc line with
  | Split tokens bufsize => length tokens < bufsize
  | SplitExited => ∃ n, alloc n = false
  | SplitFault => False
  end.
Proof.
  unfold lsh_split_line.
  destruct (alloc LSH_TOK_BUFSIZE) eqn:Halloc; [|by eexists].
  apply split_loop_safe; [done|]. unfold LSH_TOK_BUFSIZE. simpl. lia.
Qed.

(** * Further properties of the history store and its file *)

(** X4. Appending to any well-formed store, not only the fresh one: the
    store stays well formed, its capacity does not change, and it holds the
    lines it held followed by the new ones, cut down to the newest
    [capacity] of them. *)
Theorem history_add_all_fifo (hist : History) (lines : list string) :
  hist_wf hist →
  hist_wf (history_add_all hist lines) ∧
  capacity (history_add_all hist lines) = capacity hist ∧
  history_list (history_add_all hist lines) =
    drop (length (history_list hist) + length lines - capacity hist)
         (history_list hist ++ lines).
Proof.
  intros Hwf. apply hist_wf_repr in Hwf.
  destruct (history_add_all_repr lines _ _ Hwf) as [Hr Hcap].
  split; [exact (hist_repr_wf _ _ Hr)|]. split; [done|].
  exact (hist_repr_list _ _ Hr).
Qed.

(** X4 for the store holding [ls] and [pwd] and one more line. *)
Lemma history_add_all_fifo_witness :
  hist_wf ls_pwd ∧
  hist_wf (history_add_all ls_pwd ["cat notes.txt"]) ∧
  capacity (history_add_all ls_pwd ["cat notes.txt"]) = capacity ls_pwd ∧
  history_list (history_add_all ls_pwd ["cat notes.txt"]) =
    drop (length (history_list ls_pwd) + length ["cat notes.txt"]
          - capacity ls_pwd)
         (history_list ls_pwd ++ ["cat notes.txt"]).
Proof.
  split; [exact ls_pwd_wf|].
  exact (history_add_all_fifo ls_pwd ["cat notes.txt"] ls_pwd_wf).
Defined.

(** Reading back a text of whole lines is appending them one by one. *)
Lemma history_load_loop_add_all l : ∀ fuel hist,
  Forall one_line l →
  String.length (lines_text l) ≤ fuel →
  history_load_loop fuel hist (lines_text l) = history_add_all hist l.
Proof.
  induction l as [|command l IH]; intros fuel hist Hl Hfuel.
  { by destruct fuel. }
  apply Forall_cons in Hl as [(Hc & Hlf & Hlen) Hl].
  cbn [lines_text foldr] in *. fold (lines_text l) in *.
  rewrite length_append in Hfuel. unfold nl in Hfuel. push_append.
  cbn [String.length] in Hfuel.
  destruct fuel as [|fuel]; [lia|]. cbn [history_load_loop].
  unfold fgets.
  destruct (command +:+ nl +:+ lines_text l) as [|c0 s0] eqn:Htext.
  { by destruct command. }
  rewrite <- Htext. clear c0 s0 Htext.
  unfold nl at 1. push_append.
  rewrite fgets_read_line by (done || lia).
  rewrite until_nul_line, strcspn_line, substring_line by done.
  cbn [history_add_all foldl]. apply IH; [done|lia].
Qed.

(** X5. [history_load] on a file of whole lines (each at most 1022
    characters, no NUL) appends them to the store like [history_add] does,
    so a file with more lines than the capacity leaves the newest
    [capacity] lines, and lines already in the store are pushed out
    first. *)
Theorem history_load_lines (hist : History) (l : list string) :
  hist_wf hist → Forall one_line l →
  history_load hist (Some (lines_text l)) = history_add_all hist l ∧
  history_list (history_load hist (Some (lines_text l))) =
    drop (length (history_list hist) + length l - capacity hist)
         (history_list hist ++ l).
Proof.
  intros Hwf Hl. unfold history_load.
  rewrite history_load_loop_add_all by done.
  split; [done|].
  apply hist_wf_repr in Hwf.
  destruct (history_add_all_repr l _ _ Hwf) as [Hr _].
  exact (hist_repr_list _ _ Hr).
Qed.

Lemma one_line_ls_pwd : Forall one_line ["ls"; "pwd"].
Proof. repeat constructor; unfold strlen; simpl; lia. Qed.

(** X5 for a file of two lines read into the fresh store. *)
Lemma history_load_lines_witness :
  hist_wf history_init ∧ Forall one_line ["ls"; "pwd"] ∧
  history_load history_init (Some (lines_text ["ls"; "pwd"]))
    = history_add_all history_init ["ls"; "pwd"] ∧
  history_list (history_load history_init (Some (lines_text ["ls"; "pwd"]))) =
    drop (length (history_list history_init) + length ["ls"; "pwd"]
          - capacity history_init)
         (history_list history_init ++ ["ls"; "pwd"]).
Proof.
  split; [exact history_init_wf|]. split; [exact one_line_ls_pwd|].
  exact (history_load_lines history_init ["ls"; "pwd"] history_init_wf
           one_line_ls_pwd).
Defined.

(** A file of 1001 lines read into the fresh store leaves the last 1000. *)
Example history_load_1001 :
  history_list
    (history_load history_init (Some (lines_text (pretty <$> seq 1 1001))))
  = pretty <$> seq 2 1000.
Proof. vm_compute. reflexivity. Qed.

Lemma fgets_read_length room : ∀ fp,
  String.length (fgets_read room fp).1 ≤ room.
Proof.
  induction room as [|room IH]; intros fp; [done|].
  destruct fp as [|c s]; [simpl; lia|].
  rewrite fgets_read_cons. destruct (Ascii.eqb c LF); [simpl; lia|].
  specialize (IH s). destruct (fgets_read room s) as [got rest].
  simpl in *. lia.
Qed.

Lemma until_nul_cstring bytes :
  cstring (until_nul bytes) ∧
  String.length (until_nul bytes) ≤ String.length bytes.
Proof.
  induction bytes as [|c s [IH1 IH2]]; [done|]. cbn [until_nul].
  destruct (Ascii.eqb_spec c NUL) as [->|Hne]; [split; [done|simpl; lia]|].
  split; [by apply cstring_cons|simpl; lia].
Qed.

(** Cutting a C string at its first newline. *)
Lemma cut_at_newline s :
  cstring s →
  let buffer := substring 0 (strcspn s nl) s in
  cstring buffer ∧ strchr buffer LF = false ∧
  String.length buffer ≤ String.length s.
Proof.
  induction s as [|c s IH]; intros Hc; [done|].
  apply cstring_cons in Hc as [Hne Hs].
  cbn [strcspn nl strchr].
  destruct (Ascii.eqb_spec c LF) as [->|Hlf]; cbn [orb].
  { split; [done|]. split; [done|]. simpl. lia. }
  cbn [substring]. destruct (IH Hs) as (IH1 & IH2 & IH3).
  split; [by apply cstring_cons|].
  split; [|simpl in *; lia].
  cbn [strchr]. destruct (Ascii.eqb_spec LF c) as [Heq|_]; [by symmetry in Heq|].
  done.
Qed.

(** What one pass of the loop of [history_load] hands to [history_add]. *)
Lemma history_load_buffer fp bytes fp' :
  fgets 1024 fp = Some (bytes, fp') →
  short_line (substring 0 (strcspn (until_nul bytes) nl) (until_nul bytes)).
Proof.
  unfold fgets. destruct fp as [|c s]; [done|]. intros Heq. simplify_eq.
  pose proof (fgets_read_length (1024 - 1) (String c s)) as Hlen.
  rewrite Heq in Hlen. cbn [fst] in Hlen.
  destruct (until_nul_cstring bytes) as [Hc Hle].
  destruct (cut_at_newline _ Hc) as (H1 & H2 & H3).
  split; [done|]. split; [done|]. unfold strlen.
  change (1024 - 1) with 1023 in Hlen. lia.
Qed.

Lemma history_add_short hist command :
  hist_wf hist → Forall short_line (history_list hist) → short_line command →
  Forall short_line (history_list (history_add hist command)).
Proof.
  intros Hwf Hall Hcmd. apply hist_wf_repr in Hwf.
  destruct (history_add_repr _ _ command Hwf) as [Hr _].
  rewrite (hist_repr_list _ _ Hr).
  apply Forall_app. split; [|by apply Forall_singleton].
  case_decide; [done|]. by apply Forall_drop.
Qed.

Lemma history_load_loop_any fuel : ∀ hist fp,
  hist_wf hist → Forall short_line (history_list hist) →
  hist_wf (history_load_loop fuel hist fp) ∧
  capacity (history_load_loop fuel hist fp) = capacity hist ∧
  Forall short_line (history_list (history_load_loop fuel hist fp)).
Proof.
  induction fuel as [|fuel IH]; intros hist fp Hwf Hall; [done|].
  cbn [history_load_loop].
  destruct (fgets 1024 fp) as [[bytes fp']|] eqn:Hgets; [|done].
  apply history_load_buffer in Hgets.
  set (buffer := substring 0 (strcspn (until_nul bytes) nl) (until_nul bytes))
    in *.
  pose proof (history_add_wf hist buffer Hwf) as Hwf'.
  pose proof (history_add_short hist buffer Hwf Hall Hgets) as Hall'.
  destruct (IH _ fp' Hwf' Hall') as (H1 & H2 & H3).
  split; [done|]. split; [|done].
  rewrite H2. apply hist_wf_repr in Hwf.
  by destruct (history_add_repr _ _ buffer Hwf) as [_ Hcap].
Qed.

(** X6. Whatever bytes the history file holds (over-long lines, NUL bytes,
    no final newline, or no file at all), [history_load] leaves a
    well-formed store of the same capacity, and if the lines held before
    were C strings of at most 1023 characters without a newline, so is
    every line held afterwards: each fits the 1024-byte edit buffer with
    its NUL. *)
Theorem history_load_any_file (hist : History) (file : option string) :
  hist_wf hist → Forall short_line (history_list hist) →
  hist_wf (history_load hist file) ∧
  capacity (history_load hist file) = capacity hist ∧
  count (history_load hist file) ≤ capacity hist ∧
  Forall short_line (history_list (history_load hist file)).
Proof.
  intros Hwf Hall. unfold history_load.
  destruct file as [fp|].
  - destruct (history_load_loop_any (String.length fp) hist fp Hwf Hall)
      as (H1 & H2 & H3).
    split; [done|]. split; [done|]. split; [|done].
    destruct H1 as (_ & _ & Hle & _). by rewrite <- H2.
  - split; [done|]. split; [done|]. split; [|done]. by destruct Hwf as (_ & _ & ? & _).
Qed.

(** X6 for a file whose only line has 1024 characters and no newline
    after it. *)
Lemma history_load_any_file_witness :
  let file := Some (long_line +:+ "b") in
  hist_wf history_init ∧ Forall short_line (history_list history_init) ∧
  hist_wf (history_load history_init file) ∧
  capacity (history_load history_init file) = capacity history_init ∧
  count (history_load history_init file) ≤ capacity history_init ∧
  Forall short_line (history_list (history_load history_init file)).
Proof.
  intros file.
  assert (Forall short_line (history_list history_init)) as Hall
    by (change (Forall short_line []); constructor).
  split; [exact history_init_wf|]. split; [exact Hall|].
  exact (history_load_any_file history_init file history_init_wf Hall).
Defined.

(** * Further properties of the line editor *)

(** X7. The terminal mode around a line-read: a return hands the terminal
    back in the mode found at entry; while the program waits for a key the
    terminal is raw; an [exit] taken inside the loop leaves it raw, and the
    [exit] for the first allocation happens before the mode was touched. *)
Theorem lsh_read_line_mode (e : env) (s : shell) (input : list Z) :
  match lsh_read_line e s input with
  | Returned _ st _ => tty (sh st) = tty s
  | Reading st => is_raw (tty (sh st)) = true ∧ orig_termios (sh st) = tty s
  | Exited st =>
      if alloc_ok e LSH_RL_BUFSIZE then is_raw (tty (sh st)) = true
      else tty (sh st) = tty s
  | Fault _ _ => True
  end.
Proof.
  unfold lsh_read_line. destruct (alloc_ok e LSH_RL_BUFSIZE); [|done].
  apply (read_loop_rule e
    (λ st, orig_termios (sh st) = tty s ∧ is_raw (tty (sh st)) = true)
    (λ o, match o with
          | Returned _ st _ => tty (sh st) = tty s
          | Reading st =>
              is_raw (tty (sh st)) = true ∧ orig_termios (sh st) = tty s
          | Exited st => is_raw (tty (sh st)) = true
          | Fault _ _ => True
          end)); try done.
  - intros st0 seq0 seq1 [H1 H2]. unfold_body.
    repeat case_match; simplify_eq; simpl; done.
  - intros st0 rest [H1 H2]. unfold_body.
    repeat case_match; simplify_eq; simpl; done.
  - intros st0 [H1 H2]. unfold_body.
    repeat case_match; simplify_eq; simpl; done.
  - intros st0 [H1 H2]. unfold_body.
    repeat case_match; simplify_eq; simpl; done.
  - intros st0 c [H1 H2]. unfold_body.
    repeat case_match; simplify_eq; simpl; done.
  - intros st0 [H1 H2]. done.
Qed.

(** ** Recalling history entries *)

Lemma history_entry_list hist i :
  hist_wf hist → i < count hist →
  history_entry hist i = history_list hist !! i.
Proof.
  intros Hwf Hi. pose proof Hwf as (_ & Hlen & Hle & Htake).
  unfold history_entry. case_decide; [|lia].
  assert (take (count hist) (commands hist) !! i
          = (Some <$> history_list hist) !! i) as Hlook by (by rewrite Htake).
  rewrite lookup_take_lt, list_lookup_fmap in Hlook by done.
  rewrite Hlook. by destruct (history_list hist !! i).
Qed.

Lemma cstring_chars s :
  cstring s → Forall (λ c, c ≠ NUL) (list_ascii_of_string s).
Proof.
  induction s as [|c s IH]; intros Hc; [constructor|].
  apply cstring_cons in Hc as [Hne Hs]. cbn [list_ascii_of_string].
  constructor; [done|by apply IH].
Qed.

Lemma length_chars s : length (list_ascii_of_string s) = String.length s.
Proof. induction s as [|c s IH]; [done|]. simpl. by rewrite IH. Qed.

(** The block right after [strcpy(buffer, s)] reads back as [s]. *)
Lemma c_str_strcpy s (tail : list (option ascii)) :
  cstring s →
  c_str ((Some <$> list_ascii_of_string s) ++ Some NUL :: tail) = Some s.
Proof.
  intros Hc.
  rewrite (c_str_text (list_ascii_of_string s)).
  - by rewrite string_of_list_ascii_of_string.
  - by apply cstring_chars.
  - rewrite take_app_length'; [done|]. by rewrite length_fmap.
  - rewrite lookup_app_r by (by rewrite length_fmap).
    by rewrite length_fmap, Nat.sub_diag.
Qed.

Lemma read_loop_up_key e st rest :
  read_loop e st (up_key ++ rest) =
    match up_arrow st with
    | Next st' => read_loop e st' rest
    | Done o => o
    end.
Proof. reflexivity. Qed.

(** One up arrow on an entry that fits. *)
Lemma up_arrow_recalls hist t0 st i command :
  at_prompt hist t0 st →
  history_pos st = S i →
  history_entry hist i = Some command →
  strlen command < LSH_RL_BUFSIZE →
  ∃ st', up_arrow st = Next st' ∧ recalled hist t0 i command st'.
Proof.
  intros (Hsize & Hlen & Hhist & Horig) Hpos Hentry Hfit.
  unfold up_arrow, recall, strcpy. rewrite Hpos. proj_simpl.
  case_decide; [|lia]. rewrite Hhist.
  replace (S i - 1) with i by lia. rewrite Hentry.
  case_decide; [|lia].
  eexists. split; [reflexivity|].
  unfold recalled, at_prompt. proj_simpl.
  rewrite length_app, length_fmap, length_chars. cbn [length].
  rewrite length_drop, Hlen. unfold strlen in *.
  split_and!; try done; try lia.
  rewrite cons_middle, app_assoc.
  apply take_app_length'.
  rewrite length_app, length_fmap, length_chars. done.
Qed.

(** [k + 1] up arrows, every entry on the way fitting the block. *)
Lemma read_loop_up_keys e hist t0 k : ∀ st tail,
  hist_wf hist →
  Forall short_line (history_list hist) →
  at_prompt hist t0 st →
  k < history_pos st → history_pos st ≤ count hist →
  ∃ st' command,
    read_loop e st (up_keys (S k) ++ tail) = read_loop e st' tail ∧
    history_list hist !! (history_pos st - S k) = Some command ∧
    recalled hist t0 (history_pos st - S k) command st'.
Proof.
  induction k as [|k IH]; intros st tail Hwf Hshort Hprompt Hk Hpos.
  - destruct (history_entry_wf hist (history_pos st - 1) Hwf ltac:(lia))
      as [command Hentry].
    pose proof Hentry as Hlist.
    rewrite history_entry_list in Hlist by (done || lia).
    assert (short_line command) as (_ & _ & Hlen).
    { eapply Forall_lookup_1; [exact Hshort|exact Hlist]. }
    destruct (up_arrow_recalls hist t0 st (history_pos st - 1) command
                Hprompt ltac:(lia) Hentry)
      as (st' & Hup & Hrec).
    { unfold LSH_RL_BUFSIZE. lia. }
    exists st', command.
    unfold up_keys. cbn [replicate concat]. rewrite app_nil_r.
    rewrite read_loop_up_key, Hup. done.
  - destruct (history_entry_wf hist (history_pos st - 1) Hwf ltac:(lia))
      as [command Hentry].
    pose proof Hentry as Hlist.
    rewrite history_entry_list in Hlist by (done || lia).
    assert (short_line command) as (_ & _ & Hlen).
    { eapply Forall_lookup_1; [exact Hshort|exact Hlist]. }
    destruct (up_arrow_recalls hist t0 st (history_pos st - 1) command
                Hprompt ltac:(lia) Hentry)
      as (st1 & Hup & (Hprompt1 & Hpos1 & _)).
    { unfold LSH_RL_BUFSIZE. lia. }
    destruct (IH st1 tail Hwf Hshort Hprompt1 ltac:(lia) ltac:(lia))
      as (st' & command' & Hrun & Hlist' & Hrec').
    exists st', command'.
    unfold up_keys in *. cbn [replicate concat] in *.
    rewrite <- app_assoc, read_loop_up_key, Hup, Hrun.
    rewrite Hpos1 in *.
    replace (history_pos st - S (S k)) with (history_pos st - 1 - S k) by lia.
    done.
Qed.

(** Newline after a recall returns the recalled command. *)
Lemma newline_recalled hist t0 i command st rest :
  recalled hist t0 i command st → cstring command →
  ∃ st',
    newline st rest = Returned command st' rest ∧
    tty (sh st') = t0 ∧
    shell_history (sh st') =
      if decide (0 < strlen command) then history_add hist command else hist.
Proof.
  intros ((Hsize & Hlen & Hhist & Horig) & Hpos & Hposition & Htake) Hc.
  assert (strlen command < LSH_RL_BUFSIZE) as Hfit.
  { apply (f_equal length) in Htake.
    rewrite length_take, length_app, length_fmap, length_chars in Htake.
    cbn [length] in Htake. unfold strlen in *. lia. }
  assert (<[strlen command := Some NUL]> (buffer st) =
          (Some <$> list_ascii_of_string command) ++
          Some NUL :: drop (strlen command + 1) (buffer st)) as Hbuf.
  { rewrite <- (take_drop (strlen command + 1) (buffer st)) at 1.
    rewrite Htake, <- app_assoc. cbn [app].
    rewrite insert_app_r_alt by (rewrite length_fmap, length_chars; done).
    rewrite length_fmap, length_chars. unfold strlen.
    rewrite Nat.sub_diag. done. }
  unfold newline, store. rewrite Hposition, Hsize.
  case_decide; [|lia]. proj_simpl.
  rewrite Hbuf, c_str_strcpy by done.
  case_decide; eexists; (split; [reflexivity|]); proj_simpl;
    unfold disable_raw_mode, printf, with_history;
    cbn [tty shell_history orig_termios]; rewrite ?Hhist; done.
Qed.

(** X8. Up arrows followed by Enter resubmit an earlier command.  In a
    history of lines that fit the edit buffer (C strings of at most 1023
    characters), [k + 1] up arrows, [k + 1] at most the number of entries,
    then newline return the entry [k + 1] places from the newest, restore
    the terminal mode and append that command to the history again (unless
    it is the empty string). *)
Theorem recall_and_submit (e : env) (s : shell) (k : nat) (rest : list Z) :
  alloc_ok e LSH_RL_BUFSIZE = true →
  hist_wf (shell_history s) →
  Forall short_line (history_list (shell_history s)) →
  k < count (shell_history s) →
  ∃ command st,
    history_list (shell_history s) !! (count (shell_history s) - S k)
      = Some command ∧
    lsh_read_line e s (up_keys (S k) ++ 10%Z :: rest) = Returned command st rest ∧
    tty (sh st) = tty s ∧
    shell_history (sh st) =
      if decide (0 < strlen command)
      then history_add (shell_history s) command
      else shell_history s.
Proof.
  intros Halloc Hwf Hshort Hk. unfold lsh_read_line. rewrite Halloc.
  set (st0 := with_shell enable_raw_mode
                (mkRl LSH_RL_BUFSIZE 0 (replicate LSH_RL_BUFSIZE None)
                   (count (shell_history s)) s)).
  assert (at_prompt (shell_history s) (tty s) st0) as Hprompt.
  { unfold at_prompt, st0. proj_simpl. by rewrite length_replicate. }
  destruct (read_loop_up_keys e (shell_history s) (tty s) k st0
              (10%Z :: rest) Hwf Hshort Hprompt Hk (Nat.le_refl _))
    as (st1 & command & Hrun & Hlist & Hrec).
  assert (short_line command) as (Hc & _ & _).
  { eapply Forall_lookup_1; [exact Hshort|exact Hlist]. }
  destruct (newline_recalled _ _ _ _ st1 rest Hrec Hc) as (st & Hnl & Htty & Hhist).
  exists command, st. split; [exact Hlist|].
  split; [|done]. rewrite Hrun. cbn [read_loop]. exact Hnl.
Qed.

Lemma short_line_ls_pwd : Forall short_line (history_list ls_pwd).
Proof.
  change (Forall short_line ["ls"; "pwd"]).
  repeat constructor; unfold strlen; simpl; lia.
Qed.

(** X8 for two up arrows and Enter on the history [ls], [pwd]. *)
Lemma recall_and_submit_witness :
  alloc_ok plain_env LSH_RL_BUFSIZE = true ∧
  hist_wf (shell_history (shell_start ls_pwd)) ∧
  Forall short_line (history_list (shell_history (shell_start ls_pwd))) ∧
  1 < count (shell_history (shell_start ls_pwd)) ∧
  ∃ command st,
    history_list (shell_history (shell_start ls_pwd))
      !! (count (shell_history (shell_start ls_pwd)) - 2) = Some command ∧
    lsh_read_line plain_env (shell_start ls_pwd) (up_keys 2 ++ [10%Z])
      = Returned command st [] ∧
    tty (sh st) = tty (shell_start ls_pwd) ∧
    shell_history (sh st) =
      if decide (0 < strlen command)
      then history_add (shell_history (shell_start ls_pwd)) command
      else shell_history (shell_start ls_pwd).
Proof.
  assert (1 < count (shell_history (shell_start ls_pwd))) as Hk
    by (vm_compute; lia).
  split; [reflexivity|]. split; [exact ls_pwd_wf|].
  split; [exact short_line_ls_pwd|]. split; [exact Hk|].
  exact (recall_and_submit plain_env (shell_start ls_pwd) 1 []
           eq_refl ls_pwd_wf short_line_ls_pwd Hk).
Defined.

(** Two up arrows and Enter on the history [ls], [pwd] return [ls]. *)
Example recall_ls :
  ∃ st,
    lsh_read_line plain_env (shell_start ls_pwd) (up_keys 2 ++ [10%Z])
      = Returned "ls" st [] ∧
    history_list (shell_history (sh st)) = ["ls"; "pwd"; "ls"].
Proof. eexists. split; [vm_compute; reflexivity|]. vm_compute. reflexivity. Qed.

(** X9. The recall copies without looking at the size of the block: on a
    fresh line, with a newest history entry of 1024 characters or more, the
    up arrow writes past the end of the 1024-byte buffer. *)
Theorem recall_overflows (e : env) (s : shell) (command : string)
    (rest : list Z) :
  alloc_ok e LSH_RL_BUFSIZE = true →
  hist_wf (shell_history s) →
  0 < count (shell_history s) →
  history_list (shell_history s) !! (count (shell_history s) - 1)
    = Some command →
  LSH_RL_BUFSIZE ≤ strlen command →
  ∃ st, lsh_read_line e s (up_key ++ rest) = Fault BufferOverflow st.
Proof.
  intros Halloc Hwf Hcount Hlist Hlong. unfold lsh_read_line. rewrite Halloc.
  rewrite read_loop_up_key.
  unfold up_arrow, recall, strcpy, enable_raw_mode. proj_simpl.
  cbn [shell_history].
  case_decide; [|lia].
  rewrite history_entry_list, Hlist by (done || lia).
  case_decide; [lia|]. by eexists.
Qed.

(** X9 for a history whose only entry has 1024 characters. *)
Lemma recall_overflows_witness :
  let s := shell_start (history_add history_init line_1024) in
  alloc_ok plain_env LSH_RL_BUFSIZE = true ∧
  hist_wf (shell_history s) ∧
  0 < count (shell_history s) ∧
  history_list (shell_history s) !! (count (shell_history s) - 1)
    = Some line_1024 ∧
  LSH_RL_BUFSIZE ≤ strlen line_1024 ∧
  ∃ st, lsh_read_line plain_env s up_key = Fault BufferOverflow st.
Proof.
  intros s.
  assert (hist_wf (shell_history s)) as Hwf
    by exact (history_add_wf history_init line_1024 history_init_wf).
  assert (0 < count (shell_history s)) as Hcount by (vm_compute; lia).
  assert (history_list (shell_history s) !! (count (shell_history s) - 1)
          = Some line_1024) as Hlist by (vm_compute; reflexivity).
  assert (LSH_RL_BUFSIZE ≤ strlen line_1024) as Hlong by (vm_compute; lia).
  split; [reflexivity|]. split; [exact Hwf|]. split; [exact Hcount|].
  split; [exact Hlist|]. split; [exact Hlong|].
  exact (recall_overflows plain_env s line_1024 [] eq_refl Hwf Hcount Hlist Hlong).
Defined.

(** Such an entry comes from the editor itself: a line of 1024 characters
    typed and submitted, then the up arrow at the next prompt. *)
Example recall_overflows_session :
  ∃ st st',
    lsh_read_line plain_env (shell_start history_init)
      (replicate 1024 97%Z ++ [10%Z]) = Returned line_1024 st [] ∧
    lsh_read_line plain_env (sh st) up_key = Fault BufferOverflow st'.
Proof.
  do 2 eexists. split; vm_compute; reflexivity.
Qed.

(** ** Keys without a branch, and Tab on a typed line *)

Lemma c_str_unterminated cells : unterminated cells → c_str cells = None.
Proof.
  unfold unterminated. induction cells as [|[c|] cells IH]; intros Hall;
    [done| |done].
  apply Forall_cons in Hall as [Hc Hall]. cbn [c_str].
  destruct (Ascii.eqb_spec c NUL) as [->|_]; [done|].
  by rewrite IH.
Qed.

Lemma backspace_buffer st st' :
  backspace st = Next st' → buffer st' = buffer st.
Proof.
  unfold backspace. case_decide; intros Heq; by simplify_eq.
Qed.

Lemma other_key_unterminated e c st st' :
  (32 ≤ c ≤ 255)%Z →
  other_key e c st = Next st' →
  unterminated (buffer st) → unterminated (buffer st').
Proof.
  intros Hc Hstep Hun. pose proof (char_of_int_not_NUL c Hc) as Hne.
  assert (unterminated (<[position st:=Some (char_of_int c)]> (buffer st)))
    as Hins.
  { apply Forall_insert; [done|congruence]. }
  unfold other_key, printable, store in Hstep.
  destruct (Z.leb_spec 32 c); [|lia].
  case_decide; [|done]. unfold grow in Hstep. proj_simpl.
  case_decide.
  - destruct (alloc_ok e (bufsize st + LSH_RL_BUFSIZE)); [|done].
    assert (buffer st' = <[position st:=Some (char_of_int c)]> (buffer st)
                         ++ replicate LSH_RL_BUFSIZE None) as ->
      by (injection Hstep as <-; reflexivity).
    apply Forall_app. split; [done|]. by apply Forall_replicate.
  - assert (buffer st' = <[position st:=Some (char_of_int c)]> (buffer st))
      as -> by (injection Hstep as <-; reflexivity).
    done.
Qed.

(** Running the loop over printable keys and backspaces from the fresh
    line: one state for every continuation, in which the text typed is
    below the insertion point and no NUL is anywhere in the block. *)
Lemma read_loop_keys_all e keys : ∀ st tp,
  (∀ n, alloc_ok e n = true) →
  Forall (λ c, (32 ≤ c ≤ 255)%Z) keys →
  edit_inv st tp → unterminated (buffer st) →
  ∃ st', (∀ tail, read_loop e st (keys ++ tail) = read_loop e st' tail) ∧
         edit_inv st' (foldl edit_peak tp keys) ∧
         unterminated (buffer st').
Proof.
  induction keys as [|c keys IH]; intros st tp Halloc Hkeys Hinv Hun.
  { by exists st. }
  apply Forall_cons in Hkeys as [Hc Hkeys].
  cbn [foldl].
  destruct (Z.eqb_spec c 127) as [->|Hne].
  - destruct (backspace_inv st tp Hinv) as (st1 & Hstep & Hinv1).
    pose proof (backspace_buffer _ _ Hstep) as Hbuf.
    destruct (IH st1 _ Halloc Hkeys Hinv1 ltac:(by rewrite Hbuf))
      as (st' & Hrun & Hinv' & Hun').
    exists st'. split; [|done]. intros tail.
    cbn [app]. rewrite read_loop_plain_key by done.
    change (127 =? 127)%Z with true. cbv iota. rewrite Hstep. apply Hrun.
  - destruct (other_key_inv e st tp c Halloc Hc Hne Hinv)
      as (st1 & Hstep & Hinv1 & _).
    pose proof (other_key_unterminated _ _ _ _ Hc Hstep Hun) as Hun1.
    destruct (IH st1 _ Halloc Hkeys Hinv1 Hun1) as (st' & Hrun & Hinv' & Hun').
    exists st'. split; [|done]. intros tail.
    cbn [app]. rewrite read_loop_plain_key by done.
    destruct (Z.eqb_spec c 127); [done|]. rewrite Hstep. apply Hrun.
Qed.

(** A key without a branch leaves the state as it is. *)
Lemma read_loop_ignored e junk : ∀ st,
  Forall ignored_key junk → position st < bufsize st →
  read_loop e st junk = Reading st.
Proof.
  induction junk as [|c junk IH]; intros st Hjunk Hin; [done|].
  apply Forall_cons in Hjunk as [(Hc & H27 & H10 & H9) Hjunk].
  cbn [read_loop].
  destruct (Z.eqb_spec c 27); [done|]. destruct (Z.eqb_spec c 10); [done|].
  destruct (Z.eqb_spec c 9); [done|]. destruct (Z.eqb_spec c 127); [lia|].
  unfold other_key, printable, grow.
  destruct (Z.leb_spec 32 c); [lia|].
  case_decide; [lia|]. by apply IH.
Qed.

Lemma fresh_line_inv s :
  let st0 := with_shell enable_raw_mode
               (mkRl LSH_RL_BUFSIZE 0 (replicate LSH_RL_BUFSIZE None)
                  (count (shell_history s)) s) in
  edit_inv st0 ([], 0) ∧ unterminated (buffer st0).
Proof.
  intros st0. split.
  - unfold edit_inv, st0. proj_simpl. rewrite length_replicate.
    split_and!; try done. unfold LSH_RL_BUFSIZE. lia.
  - unfold unterminated, st0. proj_simpl. by apply Forall_replicate.
Qed.

(** X10. Keys without a branch are ignored, and the end of input is one of
    them.  After any printable keys and backspaces, control characters
    other than ESC, newline and tab, and the value [EOF] (-1) that
    [getchar] delivers at the end of input, change nothing: the function
    is in the state it was in before them, still waiting for a key.  So at
    the end of input it never returns. *)
Theorem lsh_read_line_ignores (e : env) (s : shell) (keys junk : list Z) :
  (∀ n, alloc_ok e n = true) →
  Forall (λ c, (32 ≤ c ≤ 255)%Z) keys →
  Forall ignored_key junk →
  (∃ st, lsh_read_line e s keys = Reading st) ∧
  lsh_read_line e s (keys ++ junk) = lsh_read_line e s keys.
Proof.
  intros Halloc Hkeys Hjunk. unfold lsh_read_line. rewrite Halloc.
  destruct (fresh_line_inv s) as [Hinv0 Hun0]. cbv zeta in Hinv0, Hun0.
  destruct (read_loop_keys_all e keys _ _ Halloc Hkeys Hinv0 Hun0)
    as (st & Hrun & Hinv & _).
  pose proof (Hrun []) as Hnil. rewrite app_nil_r in Hnil.
  destruct Hinv as (_ & _ & _ & Hin & _).
  split; [exists st; by rewrite Hnil|].
  rewrite Hrun, Hnil. cbn [read_loop]. by apply read_loop_ignored.
Qed.

(** X10 for two characters typed and then the end of input, read five
    times. *)
Lemma lsh_read_line_ignores_witness :
  let keys := [108; 115]%Z in
  let junk := replicate 5 (-1)%Z in
  (∀ n, alloc_ok plain_env n = true) ∧
  Forall (λ c, (32 ≤ c ≤ 255)%Z) keys ∧
  Forall ignored_key junk ∧
  (∃ st, lsh_read_line plain_env (shell_start ls_pwd) keys = Reading st) ∧
  lsh_read_line plain_env (shell_start ls_pwd) (keys ++ junk)
  = lsh_read_line plain_env (shell_start ls_pwd) keys.
Proof.
  intros keys junk.
  assert (∀ n, alloc_ok plain_env n = true) as Halloc by reflexivity.
  assert (Forall (λ c, (32 ≤ c ≤ 255)%Z) keys) as Hkeys
    by (repeat constructor; lia).
  assert (Forall ignored_key junk) as Hjunk.
  { apply Forall_replicate. unfold ignored_key. lia. }
  split; [exact Halloc|]. split; [exact Hkeys|]. split; [exact Hjunk|].
  exact (lsh_read_line_ignores plain_env (shell_start ls_pwd) keys junk
           Halloc Hkeys Hjunk).
Defined.

(** X11. Tab on a typed line reads a buffer that was never terminated.
    When the line so far consists of printable keys and backspaces only
    (also when nothing was typed), no NUL has been written to the block:
    [get_completions(buffer)] reads it as a C string and runs into bytes
    nobody wrote. *)
Theorem tab_reads_unterminated (e : env) (s : shell) (keys rest : list Z) :
  (∀ n, alloc_ok e n = true) →
  Forall (λ c, (32 ≤ c ≤ 255)%Z) keys →
  ∃ st, lsh_read_line e s (keys ++ 9%Z :: rest) = Fault UnterminatedRead st ∧
        c_str (buffer st) = None.
Proof.
  intros Halloc Hkeys. unfold lsh_read_line. rewrite Halloc.
  destruct (fresh_line_inv s) as [Hinv0 Hun0]. cbv zeta in Hinv0, Hun0.
  destruct (read_loop_keys_all e keys _ _ Halloc Hkeys Hinv0 Hun0)
    as (st & Hrun & _ & Hun).
  exists st. rewrite Hrun. cbn [read_loop]. unfold tab.
  rewrite (c_str_unterminated _ Hun). done.
Qed.

(** X11 for [l], [s] and Tab. *)
Lemma tab_reads_unterminated_witness :
  let keys := [108; 115]%Z in
  (∀ n, alloc_ok plain_env n = true) ∧
  Forall (λ c, (32 ≤ c ≤ 255)%Z) keys ∧
  ∃ st, lsh_read_line plain_env (shell_start ls_pwd) (keys ++ [9%Z])
          = Fault UnterminatedRead st ∧
        c_str (buffer st) = None.
Proof.
  intros keys.
  assert (∀ n, alloc_ok plain_env n = true) as Halloc by reflexivity.
  assert (Forall (λ c, (32 ≤ c ≤ 255)%Z) keys) as Hkeys
    by (repeat constructor; lia).
  split; [exact Halloc|]. split; [exact Hkeys|].
  exact (tab_reads_unterminated plain_env (shell_start ls_pwd) keys []
           Halloc Hkeys).
Defined.

(** * Properties of the builtins *)

Lemma printf_printf s1 s2 sh : printf s2 (printf s1 sh) = printf (s1 +:+ s2) sh.
Proof. unfold printf. simpl. by rewrite append_assoc. Qed.

Lemma printf_empty sh : printf EmptyString sh = sh.
Proof. destruct sh. unfold printf. simpl. by rewrite append_empty_r. Qed.

Lemma fgets_read_split room : ∀ fp,
  (fgets_read room fp).1 +:+ (fgets_read room fp).2 = fp.
Proof.
  induction room as [|room IH]; intros fp; [done|].
  destruct fp as [|c s]; [done|].
  rewrite fgets_read_cons. destruct (Ascii.eqb c LF); [done|].
  specialize (IH s). destruct (fgets_read room s) as [got rest].
  cbn [fst snd] in *. push_append. by rewrite IH.
Qed.

Lemma cstring_append a b : cstring (a +:+ b) → cstring a ∧ cstring b.
Proof.
  induction a as [|c a IH]; push_append; [done|].
  intros Hc. apply cstring_cons in Hc as [Hne Hc].
  destruct (IH Hc) as [Ha Hb]. split; [by apply cstring_cons|done].
Qed.

Lemma until_nul_id s : cstring s → until_nul s = s.
Proof.
  induction s as [|c s IH]; intros Hc; [done|].
  apply cstring_cons in Hc as [Hne Hc]. cbn [until_nul].
  destruct (Ascii.eqb_spec c NUL); [done|]. by rewrite IH.
Qed.

(** A pattern without a newline is found in a line with its newline exactly
    when it is found in the line. *)
Lemma prefix_line pattern : ∀ line,
  strchr pattern LF = false →
  String.prefix pattern (line +:+ nl) = String.prefix pattern line.
Proof.
  induction pattern as [|a p IH]; intros line Hlf; [by destruct line|].
  cbn [strchr] in Hlf. apply orb_false_iff in Hlf as [Ha Hp].
  destruct line as [|b line]; push_append; cbn [String.prefix nl].
  - destruct (ascii_dec a LF) as [->|_]; [|done].
    by rewrite Ascii.eqb_refl in Ha.
  - destruct (ascii_dec a b); [by apply IH|done].
Qed.

Lemma strstr_line pattern : ∀ line,
  strchr pattern LF = false →
  strstr (line +:+ nl) pattern = strstr line pattern.
Proof.
  intros line Hlf. induction line as [|b line IH].
  - cbn [strstr]. push_append. unfold nl. cbn [strstr].
    rewrite (prefix_line pattern EmptyString Hlf : String.prefix pattern (String LF EmptyString) = _).
    by destruct (String.prefix pattern EmptyString).
  - push_append. cbn [strstr]. rewrite IH.
    by rewrite <- (prefix_line pattern (String b line) Hlf).
Qed.

Section BuiltinFacts.
Context {F : Type} `{Sys F}.

Lemma out_out s1 s2 (w : @world F) : out s2 (out s1 w) = out (s1 +:+ s2) w.
Proof. unfold out. simpl. by rewrite printf_printf. Qed.

Lemma out_empty (w : @world F) : out EmptyString w = w.
Proof. destruct w. unfold out. simpl. by rewrite printf_empty. Qed.

(** ** [lsh_echo] *)

Lemma echo_loop_spaced xs : ∀ tail i (w : @world F),
  Forall cstring xs → ">" ∉ xs →
  (tail = [] ∨ ∃ more, tail = ">" :: more) →
  echo_loop (xs ++ tail) i w = (i + length xs, out (spaced xs) w).
Proof.
  induction xs as [|x xs IH]; intros tail i w Hc Hnot Htail.
  - cbn [app spaced foldr length]. rewrite out_empty, Nat.add_0_r.
    destruct Htail as [->|[more ->]]; [done|]. cbn [echo_loop].
    by rewrite strcmp_eq.
  - apply Forall_cons in Hc as [Hx Hc].
    apply not_elem_of_cons in Hnot as [Hne Hnot].
    cbn [app echo_loop]. rewrite strcmp_eq by done.
    rewrite bool_decide_eq_false_2 by congruence.
    rewrite IH by done. cbn [spaced foldr length]. fold (spaced xs).
    rewrite out_out, append_assoc. f_equal. lia.
Qed.

(** X12. What [lsh_echo] does with its arguments [xs] up to the first [>]
    (C strings, as tokens are).  Without [>], or with [>] as the last token,
    it prints every argument followed by a space, then a newline.  With [>]
    followed by a path it prints the same text to the terminal without a
    newline, opens the path for writing and writes that text to it, and
    reports when the file cannot be opened; tokens after the path are not
    looked at.  The status is 1 in every case. *)
Theorem lsh_echo_prints (w : @world F) (xs : list string) (path : string)
    (more : list string) :
  Forall cstring xs → ">" ∉ xs →
  lsh_echo ("echo" :: xs) w = (1%Z, out (spaced xs +:+ nl) w) ∧
  lsh_echo ("echo" :: xs ++ [">"]) w = (1%Z, out (spaced xs +:+ nl) w) ∧
  lsh_echo ("echo" :: xs ++ ">" :: path :: more) w =
    (1%Z,
     let w1 := out (spaced xs) w in
     let '(ok, f) := sys_fopen_w path (spaced xs) w1.2 in
     if ok then (w1.1, f) else perror "lsh" (w1.1, f)).
Proof.
  intros Hc Hnot. split_and!.
  - destruct xs as [|x xs]; [done|].
    pose proof (echo_loop_spaced (x :: xs) [] 1 w Hc Hnot (or_introl eq_refl))
      as Hloop.
    rewrite app_nil_r in Hloop.
    unfold lsh_echo. cbn [lookup list_lookup drop]. rewrite Hloop.
    rewrite !lookup_ge_None_2 by (cbn [length]; lia).
    by rewrite out_out.
  - unfold lsh_echo.
    assert (("echo" :: xs ++ [">"]) !! 1 = Some (default ">" (head xs)))
      as -> by (by destruct xs).
    cbn [drop]. rewrite !drop_0.
    rewrite echo_loop_spaced by (done || right; by eexists).
    change ("echo" :: xs ++ [">"]) with (["echo"] ++ xs ++ [">"]).
    rewrite !lookup_app_r by (cbn [length]; lia). cbn [length].
    replace (1 + length xs - 1 - length xs) with 0 by lia.
    replace (1 + length xs + 1 - 1 - length xs) with 1 by lia.
    cbn [lookup list_lookup]. by rewrite out_out.
  - unfold lsh_echo.
    assert (("echo" :: xs ++ ">" :: path :: more) !! 1
            = Some (default ">" (head xs))) as -> by (by destruct xs).
    cbn [drop]. rewrite !drop_0.
    rewrite echo_loop_spaced by (done || right; by eexists).
    change ("echo" :: xs ++ ">" :: path :: more)
      with (["echo"] ++ xs ++ ">" :: path :: more).
    rewrite !lookup_app_r by (cbn [length]; lia). cbn [length].
    replace (1 + length xs - 1 - length xs) with 0 by lia.
    replace (1 + length xs + 1 - 1 - length xs) with 1 by lia.
    cbn [lookup list_lookup].
    replace (1 + length xs - 1) with (length xs) by lia.
    rewrite take_app_length.
    cbv zeta. by destruct (sys_fopen_w _ _ _) as [[] f].
Qed.

(** ** [lsh_cat] *)

Lemma cat_loop_out fuel : ∀ fp (w : @world F),
  cstring fp → String.length fp ≤ fuel →
  cat_loop fuel fp w = out fp w.
Proof.
  induction fuel as [|fuel IH]; intros fp w Hc Hfuel.
  { destruct fp; [|simpl in Hfuel; lia]. by rewrite out_empty. }
  cbn [cat_loop]. unfold fgets.
  destruct fp as [|c s]; [by rewrite out_empty|].
  pose proof (fgets_read_split (1024 - 1) (String c s)) as Hsplit.
  pose proof (fgets_read_shorter 1022 c s) as Hshort.
  change (1024 - 1) with (S 1022) in *.
  destruct (fgets_read (S 1022) (String c s)) as [bytes rest].
  cbn [fst snd] in *. rewrite <- Hsplit in Hc.
  apply cstring_append in Hc as [Hbytes Hrest].
  rewrite until_nul_id by done.
  rewrite IH by (done || simpl in Hfuel; lia).
  by rewrite out_out, Hsplit.
Qed.

(** X13. [lsh_cat] on a file that can be opened and holds no NUL byte
    prints the file byte for byte, whatever the length of its lines: the
    1024-byte buffer it reads through loses nothing.  Tokens after the path
    are not looked at, and the status is 1. *)
Theorem lsh_cat_prints (w : @world F) (path : string) (more : list string)
    (fp : string) (f : F) :
  sys_fopen_r path w.2 = (Some fp, f) → cstring fp →
  lsh_cat ("cat" :: path :: more) w = (1%Z, out fp (w.1, f)).
Proof.
  intros Hopen Hc. unfold lsh_cat. cbn [lookup list_lookup].
  rewrite Hopen. by rewrite cat_loop_out.
Qed.

(** ** [lsh_grep] *)

Lemma grep_loop_lines pattern l : ∀ fuel n (w : @world F),
  Forall one_line l → strchr pattern LF = false →
  String.length (lines_text l) ≤ fuel →
  grep_loop fuel pattern n (lines_text l) w = out (grep_lines pattern n l) w.
Proof.
  induction l as [|line l IH]; intros fuel n w Hl Hp Hfuel.
  { cbn [lines_text foldr grep_lines]. rewrite out_empty. by destruct fuel. }
  apply Forall_cons in Hl as [(Hc & Hlf & Hlen) Hl].
  cbn [lines_text foldr grep_lines] in *. fold (lines_text l) in *.
  rewrite length_append in Hfuel. unfold nl in Hfuel. push_append.
  cbn [String.length] in Hfuel.
  destruct fuel as [|fuel]; [lia|]. cbn [grep_loop].
  unfold fgets.
  destruct (line +:+ nl +:+ lines_text l) as [|c0 s0] eqn:Htext.
  { by destruct line. }
  rewrite <- Htext. clear c0 s0 Htext.
  unfold nl at 1. push_append.
  rewrite fgets_read_line by (done || lia).
  rewrite until_nul_line, strstr_line by done.
  rewrite IH by (done || lia).
  replace (n + 1) with (S n) by lia.
  destruct (strstr line pattern).
  - rewrite out_out. by push_append.
  - by rewrite append_nil_l.
Qed.

(** X14. [lsh_grep] on a file of whole lines (each at most 1022 characters,
    no NUL) prints exactly the lines that contain the pattern, each once, in
    file order, preceded by its line number counted from 1.  The pattern is
    a token, so it holds no newline. *)
Theorem lsh_grep_prints (w : @world F) (pattern path : string)
    (more : list string) (l : list string) (f : F) :
  sys_fopen_r path w.2 = (Some (lines_text l), f) →
  Forall one_line l → strchr pattern LF = false →
  lsh_grep ("grep" :: pattern :: path :: more) w
  = (1%Z, out (grep_lines pattern 1 l) (w.1, f)).
Proof.
  intros Hopen Hl Hp. unfold lsh_grep. cbn [lookup list_lookup].
  rewrite Hopen. by rewrite grep_loop_lines.
Qed.

(** ** [lsh_ls] *)



(** ** [lsh_history] *)

Lemma history_loop_out n : ∀ i (w : @world F),
  hist_wf (shell_history w.1) →
  i + n ≤ count (shell_history w.1) →
  history_loop n i w =
    out (numbered (i + 1) (take n (drop i (history_list (shell_history w.1))))) w.
Proof.
  induction n as [|n IH]; intros i w Hwf Hle.
  { cbn [history_loop take numbered]. by rewrite out_empty. }
  cbn [history_loop].
  destruct (history_entry_wf _ i Hwf ltac:(lia)) as [command Hentry].
  pose proof Hentry as Hlist.
  rewrite history_entry_list in Hlist by (done || lia).
  unfold history_entry in Hentry. case_decide; [|lia]. rewrite Hentry.
  cbn [default].
  rewrite IH by (done || cbn; lia).
  cbn [out fst snd printf shell_history].
  rewrite (drop_S _ _ _ Hlist). cbn [take numbered].
  replace (S i + 1) with (S (i + 1)) by lia.
  rewrite out_out. by rewrite !append_assoc.
Qed.

(** X16. [lsh_history] prints the stored lines, oldest first, one per line,
    numbered from 1; it changes nothing else and answers 1. *)
Theorem lsh_history_prints (w : @world F) (args : list string) :
  hist_wf (shell_history w.1) →
  lsh_history args w = (1%Z, out (numbered 1 (history_list (shell_history w.1))) w).
Proof.
  intros Hwf. unfold lsh_history.
  rewrite history_loop_out by (done || lia).
  rewrite drop_0, take_ge; [done|].
  etrans; [apply history_list_length|]. lia.
Qed.

End BuiltinFacts.

(** X12 for [echo hello world], where a file can be written. *)
Lemma lsh_echo_prints_witness :
  let w : @world (list (string * string)) := (shell_start ls_pwd, two_files) in
  let xs := ["hello"; "world"] in
  Forall cstring xs ∧ (">" ∉ xs) ∧
  @lsh_echo _ flat_files ("echo" :: xs) w
    = (1%Z, @out _ (spaced xs +:+ nl) w) ∧
  @lsh_echo _ flat_files ("echo" :: xs ++ [">"]) w
    = (1%Z, @out _ (spaced xs +:+ nl) w) ∧
  @lsh_echo _ flat_files ("echo" :: xs ++ [">"; "out.txt"]) w =
    (1%Z,
     let w1 := @out _ (spaced xs) w in
     let '(ok, f) := @sys_fopen_w _ flat_files "out.txt" (spaced xs) w1.2 in
     if ok then (w1.1, f) else @perror _ flat_files "lsh" (w1.1, f)).
Proof.
  intros w xs.
  assert (Forall cstring xs) as Hc by (repeat constructor).
  assert (">" ∉ xs) as Hnot by compute_done.
  split; [exact Hc|]. split; [exact Hnot|].
  exact (@lsh_echo_prints _ flat_files w xs "out.txt" [] Hc Hnot).
Defined.

(** [echo hello world > out.txt] writes the file and still prints. *)
Example lsh_echo_redirect :
  let w : @world (list (string * string)) := (shell_start ls_pwd, two_files) in
  let r := @lsh_echo _ flat_files ["echo"; "hello"; "world"; ">"; "out.txt"] w in
  file_lookup "out.txt" r.2.2 = Some "hello world " ∧
  stdout r.2.1 = "hello world ".
Proof. split; vm_compute; reflexivity. Qed.

(** X13 for [cat notes.txt]. *)
Lemma lsh_cat_prints_witness :
  let w : @world (list (string * string)) := (shell_start ls_pwd, two_files) in
  let fp := lines_text ["buy milk"; "call home"; "milk the cow"] in
  @sys_fopen_r _ flat_files "notes.txt" w.2 = (Some fp, two_files) ∧
  cstring fp ∧
  @lsh_cat _ flat_files ["cat"; "notes.txt"] w = (1%Z, @out _ fp (w.1, two_files)).
Proof.
  intros w fp.
  assert (@sys_fopen_r _ flat_files "notes.txt" w.2 = (Some fp, two_files))
    as Hopen by reflexivity.
  assert (cstring fp) as Hc by reflexivity.
  split; [exact Hopen|]. split; [exact Hc|].
  exact (@lsh_cat_prints _ flat_files w "notes.txt" [] fp two_files Hopen Hc).
Defined.

Lemma one_line_notes : Forall one_line ["buy milk"; "call home"; "milk the cow"].
Proof. repeat constructor; unfold strlen; simpl; lia. Qed.

(** X14 for [grep milk notes.txt]. *)
Lemma lsh_grep_prints_witness :
  let w : @world (list (string * string)) := (shell_start ls_pwd, two_files) in
  let l := ["buy milk"; "call home"; "milk the cow"] in
  @sys_fopen_r _ flat_files "notes.txt" w.2 = (Some (lines_text l), two_files) ∧
  Forall one_line l ∧ strchr "milk" LF = false ∧
  @lsh_grep _ flat_files ["grep"; "milk"; "notes.txt"] w
  = (1%Z, @out _ (grep_lines "milk" 1 l) (w.1, two_files)).
Proof.
  intros w l.
  assert (@sys_fopen_r _ flat_files "notes.txt" w.2
          = (Some (lines_text l), two_files)) as Hopen by reflexivity.
  assert (strchr "milk" LF = false) as Hp by reflexivity.
  split; [exact Hopen|]. split; [exact one_line_notes|]. split; [exact Hp|].
  exact (@lsh_grep_prints _ flat_files w "milk" "notes.txt" [] l two_files
           Hopen one_line_notes Hp).
Defined.

(** [grep milk notes.txt] prints lines 1 and 3. *)
Example lsh_grep_milk :
  let w : @world (list (string * string)) := (shell_start ls_pwd, two_files) in
  stdout (@lsh_grep _ flat_files ["grep"; "milk"; "notes.txt"] w).2.1
  = "1: buy milk" +:+ nl +:+ "3: milk the cow" +:+ nl.
Proof. vm_compute. reflexivity. Qed.


(** [ls] prints the one name without a dot; [ls -a] opens a directory called
    [-a], which is not there. *)
Example lsh_ls_hidden :
  let w : @world (list (string * string)) := (shell_start ls_pwd, two_files) in
  stdout (@lsh_ls _ flat_files ["ls"] w).2.1 = "notes.txt" +:+ nl ∧
  stdout (@lsh_ls _ flat_files ["ls"; "-a"] w).2.1 = EmptyString ∧
  stderr (@lsh_ls _ flat_files ["ls"; "-a"] w).2.1
    = "lsh: No such file or directory" +:+ nl.
Proof. vm_compute. done. Qed.

(** X16 for the history [ls], [pwd]. *)
Lemma lsh_history_prints_witness :
  let w : @world (list (string * string)) := (shell_start ls_pwd, two_files) in
  hist_wf (shell_history w.1) ∧
  lsh_history ["history"] w
  = (1%Z, @out _ (numbered 1 (history_list (shell_history w.1))) w).
Proof.
  intros w.
  split; [exact ls_pwd_wf|].
  exact (lsh_history_prints w ["history"] ls_pwd_wf).
Defined.

(** The listing [history] prints for [ls], [pwd]. *)
Example lsh_history_ls_pwd :
  let w : @world (list (string * string)) := (shell_start ls_pwd, two_files) in
  stdout (lsh_history ["history"] w).2.1 = "1 ls" +:+ nl +:+ "2 pwd" +:+ nl.
Proof. vm_compute. reflexivity. Qed.

(** * The builtins and the session *)

Lemma same_session_refl s : same_session s s.
Proof. by unfold same_session. Qed.

Lemma same_session_trans s1 s2 s3 :
  same_session s1 s2 → same_session s2 s3 → same_session s1 s3.
Proof. unfold same_session. intros (-> & -> & ->) (-> & -> & ->). done. Qed.

Section SessionFacts.
Context {F : Type} `{Sys F}.

Lemma out_session text (w : @world F) : same_session w.1 (out text w).1.
Proof. by unfold same_session. Qed.

Lemma err_session text (w : @world F) : same_session w.1 (err text w).1.
Proof. by unfold same_session. Qed.

Lemma perror_session text (w : @world F) : same_session w.1 (perror text w).1.
Proof. by unfold same_session. Qed.

Lemma cat_loop_session fuel : ∀ fp (w : @world F),
  same_session w.1 (cat_loop fuel fp w).1.
Proof.
  induction fuel as [|fuel IH]; intros fp w; cbn [cat_loop];
    [apply same_session_refl|].
  destruct (fgets 1024 fp) as [[bytes fp']|]; [|apply same_session_refl].
  eapply same_session_trans; [|apply IH]. apply out_session.
Qed.

Lemma grep_loop_session fuel : ∀ pattern n fp (w : @world F),
  same_session w.1 (grep_loop fuel pattern n fp w).1.
Proof.
  induction fuel as [|fuel IH]; intros pattern n fp w; cbn [grep_loop];
    [apply same_session_refl|].
  destruct (fgets 1024 fp) as [[bytes fp']|]; [|apply same_session_refl].
  cbv zeta. eapply same_session_trans; [|apply IH].
  destruct (strstr _ _); [apply out_session|apply same_session_refl].
Qed.

Lemma history_loop_session n : ∀ i (w : @world F),
  same_session w.1 (history_loop n i w).1.
Proof.
  induction n as [|n IH]; intros i w; cbn [history_loop];
    [apply same_session_refl|].
  eapply same_session_trans; [|apply IH]. apply out_session.
Qed.

Lemma echo_loop_session rest : ∀ i (w : @world F),
  same_session w.1 (echo_loop rest i w).2.1.
Proof.
  induction rest as [|a rest IH]; intros i w; cbn [echo_loop];
    [apply same_session_refl|].
  destruct (strcmp a ">" =? 0)%Z; [apply same_session_refl|].
  eapply same_session_trans; [|apply IH]. apply out_session.
Qed.

Lemma foldl_session {A} (g : @world F → A → @world F) l :
  (∀ w a, same_session w.1 (g w a).1) →
  ∀ w, same_session w.1 (foldl g w l).1.
Proof.
  intros Hg. induction l as [|a l IH]; intros w; cbn [foldl];
    [apply same_session_refl|].
  eapply same_session_trans; [apply Hg|apply IH].
Qed.

Lemma lsh_cd_session args (w : @world F) : same_session w.1 (lsh_cd args w).2.1.
Proof.
  unfold lsh_cd. destruct (args !! 1); [|apply err_session].
  destruct (sys_chdir _ _) as [[] f]; [apply same_session_refl|].
  apply (perror_session "lsh" (w.1, f)).
Qed.

Lemma lsh_help_session args (w : @world F) : same_session w.1 (lsh_help args w).2.1.
Proof.
  unfold lsh_help. cbv zeta. cbn [snd].
  eapply same_session_trans; [|apply out_session].
  eapply same_session_trans;
    [|apply foldl_session; intros w0 a; apply out_session].
  by unfold same_session.
Qed.

Lemma lsh_ls_session args (w : @world F) : same_session w.1 (lsh_ls args w).2.1.
Proof.
  unfold lsh_ls. cbv zeta.
  destruct (sys_opendir _ _) as [[entries|] f].
  - apply (foldl_session _ entries) with (w := (w.1, f)).
    intros w0 a. destruct (_ && _); [apply same_session_refl|apply out_session].
  - apply (perror_session "lsh" (w.1, f)).
Qed.

Lemma lsh_pwd_session args (w : @world F) : same_session w.1 (lsh_pwd args w).2.1.
Proof.
  unfold lsh_pwd. destruct (sys_getcwd _ _) as [[dir|] f].
  - apply (out_session _ (w.1, f)).
  - apply (perror_session "lsh" (w.1, f)).
Qed.

Lemma lsh_cat_session args (w : @world F) : same_session w.1 (lsh_cat args w).2.1.
Proof.
  unfold lsh_cat. destruct (args !! 1); [|apply err_session].
  destruct (sys_fopen_r _ _) as [[fp|] f].
  - apply (cat_loop_session _ fp (w.1, f)).
  - apply (perror_session "lsh" (w.1, f)).
Qed.

Lemma lsh_grep_session args (w : @world F) : same_session w.1 (lsh_grep args w).2.1.
Proof.
  unfold lsh_grep.
  destruct (args !! 1); [|apply err_session].
  destruct (args !! 2); [|apply err_session].
  destruct (sys_fopen_r _ _) as [[fp|] f].
  - apply (grep_loop_session _ _ _ fp (w.1, f)).
  - apply (perror_session "lsh" (w.1, f)).
Qed.

Lemma lsh_touch_session args (w : @world F) : same_session w.1 (lsh_touch args w).2.1.
Proof.
  unfold lsh_touch. destruct (args !! 1); [|apply err_session].
  destruct (sys_fopen_a _ _) as [[] f]; [apply same_session_refl|].
  apply (perror_session "lsh" (w.1, f)).
Qed.

Lemma lsh_rm_session args (w : @world F) : same_session w.1 (lsh_rm args w).2.1.
Proof.
  unfold lsh_rm. destruct (args !! 1); [|apply err_session].
  destruct (sys_remove _ _) as [[] f]; [apply same_session_refl|].
  apply (perror_session "lsh" (w.1, f)).
Qed.

Lemma lsh_echo_session args (w : @world F) : same_session w.1 (lsh_echo args w).2.1.
Proof.
  unfold lsh_echo. destruct (args !! 1); [|apply out_session].
  pose proof (echo_loop_session (drop 1 args) 1 w) as Hloop.
  destruct (echo_loop (drop 1 args) 1 w) as [i w1]. cbn [snd] in Hloop.
  destruct (args !! i); [|eapply same_session_trans; [exact Hloop|apply out_session]].
  destruct (args !! (i + 1)); [|eapply same_session_trans; [exact Hloop|apply out_session]].
  destruct (sys_fopen_w _ _ _) as [[] f]; [exact Hloop|].
  eapply same_session_trans; [exact Hloop|]. apply (perror_session "lsh" (w1.1, f)).
Qed.

(** X17. No builtin touches the history or the terminal settings: whatever
    its arguments and whatever the file system answers, a builtin changes
    the two output streams and the outside world only.  In particular
    [history] does not alter the store it prints, and [clear] acts through
    the escape codes it prints. *)
Theorem builtin_keeps_session (f : builtin) (args : list string) (w : @world F) :
  f ∈ builtin_func → same_session w.1 (f args w).2.1.
Proof.
  intros Hin. unfold builtin_func in Hin.
  repeat (apply elem_of_cons in Hin as [->|Hin]).
  - apply lsh_cd_session.
  - apply lsh_help_session.
  - apply same_session_refl.
  - apply lsh_ls_session.
  - apply lsh_pwd_session.
  - apply out_session.
  - apply history_loop_session.
  - apply lsh_cat_session.
  - apply lsh_grep_session.
  - apply lsh_touch_session.
  - apply lsh_echo_session.
  - apply lsh_rm_session.
  - by apply elem_of_nil in Hin.
Qed.

End SessionFacts.

(** X17 for [history] in the session of two commands. *)
Lemma builtin_keeps_session_witness :
  let w : @world (list (string * string)) := (shell_start ls_pwd, two_files) in
  lsh_history ∈ @builtin_func _ flat_files ∧
  same_session w.1 (lsh_history ["history"] w).2.1.
Proof.
  intros w.
  assert (lsh_history ∈ @builtin_func _ flat_files) as Hin.
  { unfold builtin_func. do 6 apply list_elem_of_further. apply list_elem_of_here. }
  split; [exact Hin|].
  exact (@builtin_keeps_session _ flat_files _ ["history"] w Hin).
Defined.

(** * One pass of the command loop *)







Section LoopFacts.
Context {F : Type} `{Sys F}.



End LoopFacts.


(** Typing [exit] leaves the loop; typing [echo hi] prints and goes on, with
    the terminal back in its starting mode and the line in the history. *)
Example lsh_loop_body_exit :
  let w : @world (list (string * string)) := (shell_start ls_pwd, two_files) in
  match @lsh_loop_body _ flat_files plain_env w (keys_of "exit" ++ [10%Z]),
        @lsh_loop_body _ flat_files plain_env w
          (keys_of "echo hi" ++ 10%Z :: keys_of "ls")
  with
  | Pass 0 w1 [], Pass 1 w2 rest =>
      history_list (shell_history w1.1) = ["ls"; "pwd"; "exit"] ∧
      history_list (shell_history w2.1) = ["ls"; "pwd"; "echo hi"] ∧
      tty w2.1 = cooked ∧ rest = keys_of "ls"
  | _, _ => False
  end.
Proof. vm_compute. done. Qed.

(** * Moving through the history in both directions *)

Lemma read_loop_down_key e st rest :
  read_loop e st (down_key ++ rest) =
    match down_arrow st with
    | Next st' => read_loop e st' rest
    | Done o => o
    end.
Proof. reflexivity. Qed.

(** One down arrow below the newest entry, on an entry that fits. *)
Lemma down_arrow_recalls hist t0 st i command :
  at_prompt hist t0 st →
  history_pos st = i → S i < count hist →
  history_entry hist (S i) = Some command →
  strlen command < LSH_RL_BUFSIZE →
  ∃ st', down_arrow st = Next st' ∧ recalled hist t0 (S i) command st'.
Proof.
  intros (Hsize & Hlen & Hhist & Horig) Hpos Hi Hentry Hfit.
  unfold down_arrow. cbv zeta. rewrite Hhist.
  destruct (Z.ltb_spec (Z.of_nat (history_pos st)) (Z.of_nat (count hist) - 1));
    [|lia].
  unfold recall, strcpy. proj_simpl. rewrite Hhist, Hpos.
  replace (i + 1) with (S i) by lia. rewrite Hentry.
  case_decide; [|lia].
  eexists. split; [reflexivity|].
  unfold recalled, at_prompt. proj_simpl.
  rewrite length_app, length_fmap, length_chars. cbn [length].
  rewrite length_drop, Hlen. unfold strlen in *.
  split_and!; try done; try lia.
  rewrite cons_middle, app_assoc.
  apply take_app_length'.
  rewrite length_app, length_fmap, length_chars. done.
Qed.

(** [j] down arrows from a recalled entry: one entry toward the newest for
    each, none past the newest. *)
Lemma read_loop_down_keys e hist t0 j : ∀ st tail command,
  hist_wf hist →
  Forall short_line (history_list hist) →
  recalled hist t0 (history_pos st) command st →
  history_list hist !! history_pos st = Some command →
  ∃ st' command',
    read_loop e st (down_keys j ++ tail) = read_loop e st' tail ∧
    history_list hist !! ((history_pos st + j) `min` (count hist - 1))
      = Some command' ∧
    recalled hist t0 ((history_pos st + j) `min` (count hist - 1)) command' st'.
Proof.
  induction j as [|j IH]; intros st tail command Hwf Hshort Hrec Hlist.
  - pose proof (lookup_lt_Some _ _ _ Hlist) as Hlt.
    pose proof (history_list_length hist) as Hlen.
    exists st, command.
    replace ((history_pos st + 0) `min` (count hist - 1)) with (history_pos st)
      by lia.
    done.
  - pose proof (lookup_lt_Some _ _ _ Hlist) as Hlt.
    pose proof (history_list_length hist) as Hlen.
    unfold down_keys. cbn [replicate concat]. fold (down_keys j).
    rewrite <- app_assoc, read_loop_down_key.
    destruct (decide (S (history_pos st) < count hist)) as [Hmore|Hlast].
    + destruct (history_entry_wf hist (S (history_pos st)) Hwf Hmore)
        as [command1 Hentry].
      pose proof Hentry as Hlist1.
      rewrite history_entry_list in Hlist1 by (done || lia).
      assert (short_line command1) as (_ & _ & Hfit).
      { eapply Forall_lookup_1; [exact Hshort|exact Hlist1]. }
      destruct Hrec as (Hprompt & _).
      destruct (down_arrow_recalls hist t0 st _ command1 Hprompt eq_refl
                  Hmore Hentry) as (st1 & -> & Hrec1).
      { unfold LSH_RL_BUFSIZE. lia. }
      pose proof Hrec1 as (_ & Hpos1 & _).
      rewrite <- Hpos1 in Hrec1, Hlist1.
      destruct (IH st1 tail command1 Hwf Hshort Hrec1 Hlist1)
        as (st' & command' & Hrun & Hlist' & Hrec').
      exists st', command'. rewrite Hrun, Hpos1 in *.
      replace (history_pos st + S j) with (S (history_pos st) + j) by lia.
      done.
    + pose proof Hrec as ((_ & _ & Hhist & _) & _).
      rewrite down_arrow_newest by (rewrite Hhist; lia).
      destruct (IH st tail command Hwf Hshort Hrec Hlist)
        as (st' & command' & Hrun & Hlist' & Hrec').
      exists st', command'.
      replace ((history_pos st + S j) `min` (count hist - 1))
        with ((history_pos st + j) `min` (count hist - 1)) by lia.
      done.
Qed.

(** X19. Up and down arrows move through the history like a cursor that
    stops at both ends of its way back.  In a history of lines that fit the
    edit buffer, [k + 1] up arrows ([k + 1] at most the number of entries)
    followed by [j] down arrows and Enter return the entry [k - j + 1]
    places from the newest: each down arrow undoes one up arrow, and the
    down arrows beyond the [k]-th are without effect, so that the newest
    entry stays in the line and is what Enter submits. *)
Theorem up_down_submit (e : env) (s : shell) (k j : nat) (rest : list Z) :
  alloc_ok e LSH_RL_BUFSIZE = true →
  hist_wf (shell_history s) →
  Forall short_line (history_list (shell_history s)) →
  k < count (shell_history s) →
  ∃ command st,
    history_list (shell_history s) !! (count (shell_history s) - S (k - j))
      = Some command ∧
    lsh_read_line e s (up_keys (S k) ++ down_keys j ++ 10%Z :: rest)
      = Returned command st rest ∧
    tty (sh st) = tty s ∧
    shell_history (sh st) =
      if decide (0 < strlen command)
      then history_add (shell_history s) command
      else shell_history s.
Proof.
  intros Halloc Hwf Hshort Hk. unfold lsh_read_line. rewrite Halloc.
  set (st0 := with_shell enable_raw_mode
                (mkRl LSH_RL_BUFSIZE 0 (replicate LSH_RL_BUFSIZE None)
                   (count (shell_history s)) s)).
  assert (at_prompt (shell_history s) (tty s) st0) as Hprompt.
  { unfold at_prompt, st0. proj_simpl. by rewrite length_replicate. }
  destruct (read_loop_up_keys e (shell_history s) (tty s) k st0
              (down_keys j ++ 10%Z :: rest) Hwf Hshort Hprompt Hk
              (Nat.le_refl _))
    as (st1 & command1 & Hrun1 & Hlist1 & Hrec1).
  change (history_pos st0) with (count (shell_history s)) in *.
  pose proof Hrec1 as (_ & Hpos1 & _).
  rewrite <- Hpos1 in Hrec1, Hlist1.
  destruct (read_loop_down_keys e (shell_history s) (tty s) j st1
              (10%Z :: rest) command1 Hwf Hshort Hrec1 Hlist1)
    as (st2 & command & Hrun2 & Hlist2 & Hrec2).
  rewrite Hpos1 in *.
  replace ((count (shell_history s) - S k + j) `min` (count (shell_history s) - 1))
    with (count (shell_history s) - S (k - j)) in * by lia.
  assert (short_line command) as (Hc & _ & _).
  { eapply Forall_lookup_1; [exact Hshort|exact Hlist2]. }
  destruct (newline_recalled _ _ _ _ st2 rest Hrec2 Hc)
    as (st & Hnl & Htty & Hhist).
  exists command, st. split; [exact Hlist2|].
  split; [|done]. rewrite Hrun1, Hrun2. cbn [read_loop]. exact Hnl.
Qed.

(** X19 for up, up, down, down, down and Enter on the history [ls], [pwd]. *)
Lemma up_down_submit_witness :
  alloc_ok plain_env LSH_RL_BUFSIZE = true ∧
  hist_wf (shell_history (shell_start ls_pwd)) ∧
  Forall short_line (history_list (shell_history (shell_start ls_pwd))) ∧
  1 < count (shell_history (shell_start ls_pwd)) ∧
  ∃ command st,
    history_list (shell_history (shell_start ls_pwd))
      !! (count (shell_history (shell_start ls_pwd)) - S (1 - 3)) = Some command ∧
    lsh_read_line plain_env (shell_start ls_pwd)
      (up_keys 2 ++ down_keys 3 ++ [10%Z]) = Returned command st [] ∧
    tty (sh st) = tty (shell_start ls_pwd) ∧
    shell_history (sh st) =
      if decide (0 < strlen command)
      then history_add (shell_history (shell_start ls_pwd)) command
      else shell_history (shell_start ls_pwd).
Proof.
  assert (1 < count (shell_history (shell_start ls_pwd))) as Hk
    by (vm_compute; lia).
  split; [reflexivity|]. split; [exact ls_pwd_wf|].
  split; [exact short_line_ls_pwd|]. split; [exact Hk|].
  exact (up_down_submit plain_env (shell_start ls_pwd) 1 3 []
           eq_refl ls_pwd_wf short_line_ls_pwd Hk).
Defined.

(** Up, up, down and Enter on the history [ls], [pwd] return [pwd]. *)
Example up_up_down_pwd :
  match lsh_read_line plain_env (shell_start ls_pwd)
          (up_keys 2 ++ down_keys 1 ++ [10%Z]) with
  | Returned line st [] =>
      line = "pwd" ∧ history_list (shell_history (sh st)) = ["ls"; "pwd"; "pwd"]
  | _ => False
  end.
Proof. vm_compute. done. Qed.
